(** * Transport-modelling exercise: mode choice, congestion, equilibrium loop

    A shallow embedding of the computational cells of
    [exercise_test_network.ipynb]: the multinomial-logit function [mnl],
    the Smock travel-time function [travel_time], the list comprehensions
    that fill the columns [cap], [time_2] and [cap_2], and the
    [for j in range(10)] loop.

    Numbers.  In the main embedding a Python [float] or [int] is a real
    number and [np.exp] is the real exponential: rounding, overflow, the
    infinities and NaN of binary64 are not represented.  The module
    [Binary64] embeds [travel_time] a second time with the range of
    binary64: a result that rounds to infinity is [inf], one that rounds
    to zero is zero, [0 * inf] is [nan]; rounding to 53 bits is still not
    represented.  What Python raises is kept: a missing column is a
    [KeyError], an index out of range an [IndexError], a string used as a
    number a [TypeError], a division of Python numbers by zero a
    [ZeroDivisionError]. *)

From Stdlib Require Import Reals Lra Lia List ZArith.
From stdpp Require Import gmap strings.
Import ListNotations.

Local Open Scope string_scope.
Local Open Scope R_scope.

(** ** Values, exceptions and the result monad *)

(** A cell of a DataFrame row: the notebook's tables hold numbers (columns
    [a], [b], [dist], [time], [cap], ...) and strings (column [mode]). *)
Inductive value : Type :=
| Num (x : R)
| Str (s : string).

Inductive exn : Type :=
| KeyError (key : string)
| IndexError
| TypeError
| ZeroDivisionError
| ValueError.

Inductive result (A : Type) : Type :=
| Ok (a : A)
| Raise (e : exn).

Arguments Ok {A} a.
Arguments Raise {A} e.

Definition bind {A B : Type} (m : result A) (k : A -> result B) : result B :=
  match m with
  | Ok a => k a
  | Raise e => Raise e
  end.

Notation "'let*' x ':=' m 'in' k" := (bind m (fun x => k))
  (at level 10, x name, m at level 100, k at level 200).

(** A list comprehension whose element expression may raise: elements are
    evaluated from left to right and the first exception ends it. *)
Fixpoint comprehension {A B : Type} (f : A -> result B) (xs : list A)
  : result (list B) :=
  match xs with
  | [] => Ok []
  | x :: xs' =>
      let* y := f x in
      let* ys := comprehension f xs' in
      Ok (y :: ys)
  end.

(** ** Python primitives *)

(** [row[key]] on a pandas Series. *)
Definition getitem (row : gmap string value) (key : string) : result value :=
  match row !! key with
  | Some v => Ok v
  | None => Raise (KeyError key)
  end.

(** [xs[i]] on a Python list, for an index [i >= 0]. *)
Definition index {A : Type} (xs : list A) (i : nat) : result A :=
  match nth_error xs i with
  | Some x => Ok x
  | None => Raise IndexError
  end.

(** [x * y] where one operand is a float: a string operand is a
    [TypeError]. *)
Definition py_mul (x y : value) : result R :=
  match x, y with
  | Num a, Num b => Ok (a * b)
  | _, _ => Raise TypeError
  end.

(** [x / y] on Python numbers, which is what the cells of a row are: the
    table has string columns, so [iterrows] yields rows of Python objects.
    Dividing by zero raises. *)
Definition py_div (x y : value) : result R :=
  match x, y with
  | Num a, Num b => if Req_dec_T b 0 then Raise ZeroDivisionError else Ok (a / b)
  | _, _ => Raise TypeError
  end.

(** The builtin [sum]: starts from [0] and adds from left to right. *)
Definition py_sum (xs : list R) : R := fold_left Rplus xs 0.

(** [x == s] for a string literal [s]. *)
Definition eq_str (x : value) (s : string) : bool :=
  match x with
  | Str t => String.eqb t s
  | Num _ => false
  end.

(** ** Step 5: [travel_time] *)

(** [return 0.5 * time * np.exp(volumes / capacity)] *)
Definition travel_time (volumes capacity time : value) : result R :=
  let* half := py_mul (Num 0.5) time in
  let* load := py_div volumes capacity in
  Ok (half * exp load).

(** ** Step 1: [mnl] *)

(** One summand of the disutility of [row]:
    [row[los_col_names[i]] * beta[i]]. *)
Definition los_term (row : gmap string value) (los_col_names : list string)
    (beta : list R) (i : nat) : result R :=
  let* col := index los_col_names i in
  let* x := getitem row col in
  let* b := index beta i in
  py_mul x (Num b).

(** [- sum([row[los_col_names[i]] * beta[i]
            for i in range(len(los_col_names))])] *)
Definition utility (los_col_names : list string) (beta : list R)
    (row : gmap string value) : result R :=
  let* terms := comprehension (los_term row los_col_names beta)
                              (seq 0 (length los_col_names)) in
  Ok (- py_sum terms).

(** [mnl(od_pair, los_col_names, beta)]: [od_pair] is the slice of the
    links table for one origin and destination, a list of rows in table
    order ([iterrows]).

    [v = [- sum([...]) for _, row in od_pair.iterrows()]]
    [p = [np.exp(val) / sum([np.exp(m) for m in v]) for val in v]]
    [return p] *)
Definition mnl (od_pair : list (gmap string value))
    (los_col_names : list string) (beta : list R) : result (list R) :=
  let* v := comprehension (utility los_col_names beta) od_pair in
  Ok (map (fun val => exp val / py_sum (map exp v)) v).

(** The defaults of the signature:
    [def mnl(od_pair, los_col_names=['time'], beta=[1.5])]. *)
Definition mnl_default (od_pair : list (gmap string value)) : result (list R) :=
  mnl od_pair ["time"] [1.5].

(** ** Step 5: the column [time_2] *)

(** [links[col] = vals] for a list [vals]: pandas refuses a list whose
    length is not the number of rows; every other column is kept.  (On a
    table without rows pandas takes any list and creates the rows; no
    cell of the notebook does that, and it is not represented.) *)
Definition setitem (col : string) (vals : list value)
    (links : list (gmap string value)) : result (list (gmap string value)) :=
  if Nat.eqb (length vals) (length links)
  then Ok (zip_with (fun row v => <[col := v]> row) links vals)
  else Raise ValueError.

(** The element expression of the comprehension:
    [travel_time(row['volumes'], row['cap'], row['time'])
     if row['mode']=='car' else row['time']]. *)
Definition time_2_of (row : gmap string value) : result value :=
  let* m := getitem row "mode" in
  if eq_str m "car" then
    let* volumes := getitem row "volumes" in
    let* cap := getitem row "cap" in
    let* time := getitem row "time" in
    let* t := travel_time volumes cap time in
    Ok (Num t)
  else getitem row "time".

(** [links['time_2'] = [... for _, row in links.iterrows()]] *)
Definition congestion_step (links : list (gmap string value))
  : result (list (gmap string value)) :=
  let* times := comprehension time_2_of links in
  setitem "time_2" times links.

(** ** Step 5: the iteration loop *)

(** What one [print] of the loop shows: the round number and the mean of
    [probs_4] over the car rows and over the rail rows.  The mean of an
    empty selection, which pandas prints as [nan], is [None].  Missing
    values in the column, which pandas leaves out of a mean, are not
    represented: a cell holds a number or a string. *)
Record report : Type := Report {
  iteration : nat;
  car_share : option R;
  rail_share : option R
}.

Definition as_num (x : value) : result R :=
  match x with
  | Num a => Ok a
  | Str _ => Raise TypeError
  end.

Definition mean (xs : list R) : option R :=
  match xs with
  | [] => None
  | _ => Some (py_sum xs / INR (length xs))
  end.

(** [links[col]]: the cells of a column, in row order. *)
Definition column (col : string) (links : list (gmap string value))
  : result (list value) :=
  comprehension (fun row => getitem row col) links.

(** [links.loc[links['mode']==m, 'probs_4'].mean()] *)
Definition mode_share (m : string) (links : list (gmap string value))
  : result (option R) :=
  let* modes := column "mode" links in
  let* cells := column "probs_4" links in
  let selected :=
    map snd (List.filter (fun mc => eq_str (fst mc) m) (combine modes cells)) in
  let* probs := comprehension as_num selected in
  Ok (mean probs).

Section Loop.

(** The statements of the loop body that the notebook leaves for the
    reader to fill in (the probabilities, [links['volumes_2'] = ...],
    [links['time_2'] = ...]): any update of the table, which may raise. *)
Variable body : list (gmap string value) -> result (list (gmap string value)).

(** One pass: the body, then the [print] with the round number [j]. *)
Definition round (j : nat) (st : list (gmap string value) * list report)
  : result (list (gmap string value) * list report) :=
  let* links := body (fst st) in
  let* car := mode_share "car" links in
  let* rail := mode_share "rail" links in
  Ok (links, (snd st ++ [Report j car rail])%list).

(** [for j in js: ...] *)
Fixpoint for_each (js : list nat) (st : list (gmap string value) * list report)
  : result (list (gmap string value) * list report) :=
  match js with
  | [] => Ok st
  | j :: js' =>
      let* st' := round j st in
      for_each js' st'
  end.

(** [for j in range(n): ...], starting with nothing printed. *)
Definition iterate (n : nat) (links : list (gmap string value))
  : result (list (gmap string value) * list report) :=
  for_each (seq 0 n) (links, []).

(** [for j in range(10): ...] *)
Definition equilibrium_loop (links : list (gmap string value))
  : result (list (gmap string value) * list report) :=
  iterate 10 links.

End Loop.

(** ** Reference definitions

    The formulas the code is compared with, written independently of the
    Python evaluation order. *)

(** The finite sum [Σ xs]. *)
Definition big_sum (xs : list R) : R := fold_right Rplus 0 xs.

(** The numeric content of a cell of [row], [0] where there is none. *)
Definition attribute (row : gmap string value) (col : string) : R :=
  match row !! col with
  | Some (Num x) => x
  | _ => 0
  end.

(** [v = - Σ_k weight_k * attribute_k(row)] over the (attribute, weight)
    pairs. *)
Definition disutility (weights : list (string * R)) (row : gmap string value) : R :=
  - big_sum (map (fun aw => snd aw * attribute row (fst aw)) weights).

(** [p_i = exp(v_i) / Σ_j exp(v_j)] *)
Definition logit (vs : list R) (v : R) : R := exp v / big_sum (map exp vs).

(** Every column of [cols] holds a number in [row]. *)
Definition populated (cols : list string) (row : gmap string value) : Prop :=
  Forall (fun col => exists x, row !! col = Some (Num x)) cols.

(** A row on which the comprehension of [time_2] does not raise: it has a
    [mode] and a [time], and if it is a car row also numeric [volumes],
    [cap] and [time] with a capacity other than zero. *)
Definition congestible (row : gmap string value) : Prop :=
  exists m t,
    row !! "mode" = Some m /\ row !! "time" = Some t /\
    (eq_str m "car" = true ->
     exists v C T, row !! "volumes" = Some (Num v) /\
                   row !! "cap" = Some (Num C) /\ t = Num T /\ C <> 0).

(** A row that both the congestion step and the [print] of the loop
    accept: [congestible], with a number in [probs_4]. *)
Definition loop_ready (row : gmap string value) : Prop :=
  congestible row /\ exists p, row !! "probs_4" = Some (Num p).

(** [rounds body n links links' out]: [n] passes of the loop, numbered
    from [0], lead from [links] to [links'] and print [out]. *)
Inductive rounds (body : list (gmap string value) -> result (list (gmap string value)))
  : nat -> list (gmap string value) -> list (gmap string value) -> list report -> Prop :=
| rounds_O links : rounds body 0 links links []
| rounds_S n links mid links' out car rail :
    rounds body n links mid out ->
    body mid = Ok links' ->
    mode_share "car" links' = Ok car ->
    mode_share "rail" links' = Ok rail ->
    rounds body (S n) links links' (out ++ [Report n car rail])%list.

(** ** Example tables *)

(** The two links from A to B of the worked example: car with a time of
    3 h, rail with a time of 2 h. *)
Definition car_AB : gmap string value :=
  <["mode" := Str "car"]> (<["time" := Num 3]> (<["dist" := Num 300]>
    (<["volumes" := Num 400]> (<["cap" := Num 500]> (<["probs_4" := Num 0.25]> ∅))))).

Definition rail_AB : gmap string value :=
  <["mode" := Str "rail"]> (<["time" := Num 2]> (<["dist" := Num 300]>
    (<["volumes" := Num 600]> (<["cap" := Num 500]> (<["probs_4" := Num 0.75]> ∅))))).

(** An origin and destination served by one link only. *)
Definition lone_link : gmap string value :=
  <["mode" := Str "rail"]> (<["time" := Num 1]> ∅).

(** Three parallel links with the same attributes. *)
Definition twin_links : list (gmap string value) := [rail_AB; rail_AB; rail_AB].

(** Both links of [car_AB], [rail_AB] delayed by one hour. *)
Definition delayed_AB : list (gmap string value) :=
  [<["time" := Num 4]> car_AB; <["time" := Num 3]> rail_AB].

(** ** Step 6: the column [cap_2] *)

(** The element expression of the comprehension:
    [row['cap']*0.9 if row['mode']=='car' else row['cap']]. *)
Definition cap_2_of (row : gmap string value) : result value :=
  let* m := getitem row "mode" in
  if eq_str m "car" then
    let* cap := getitem row "cap" in
    let* c := py_mul cap (Num 0.9) in
    Ok (Num c)
  else getitem row "cap".

(** [links['cap_2'] = [... for _, row in links.iterrows()]] *)
Definition lorry_step (links : list (gmap string value))
  : result (list (gmap string value)) :=
  let* caps := comprehension cap_2_of links in
  setitem "cap_2" caps links.


(** A car link without capacity. *)
Definition jammed_link : gmap string value :=
  <["mode" := Str "car"]> (<["time" := Num 3]>
    (<["volumes" := Num 400]> (<["cap" := Num 0]> (<["probs_4" := Num 1]> ∅)))).

(** ** The printed shares: reference definitions *)

(** The numbers in [probs_4] of the rows whose mode is [m], in row order. *)
Fixpoint probs_of_mode (m : string) (links : list (gmap string value)) : list R :=
  match links with
  | [] => []
  | row :: rest =>
      match row !! "mode", row !! "probs_4" with
      | Some x, Some (Num p) =>
          if eq_str x m then p :: probs_of_mode m rest else probs_of_mode m rest
      | _, _ => probs_of_mode m rest
      end
  end.

(** A row the [print] of the loop accepts: it has a [mode], and a number
    in [probs_4]. *)
Definition share_ready (row : gmap string value) : Prop :=
  (exists x, row !! "mode" = Some x) /\ exists p, row !! "probs_4" = Some (Num p).

(** A table made of origin-destination pairs, each with one car row and
    one rail row, in either order, whose [probs_4] add up to one. *)
Inductive od_table : list (gmap string value) -> Prop :=
| od_table_nil : od_table []
| od_table_pair first second rest p q :
    (first !! "mode" = Some (Str "car") /\ second !! "mode" = Some (Str "rail") \/
     first !! "mode" = Some (Str "rail") /\ second !! "mode" = Some (Str "car")) ->
    first !! "probs_4" = Some (Num p) ->
    second !! "probs_4" = Some (Num q) ->
    p + q = 1 ->
    od_table rest ->
    od_table (first :: second :: rest).

(** ** Step 5: the column [cap] *)

Section Capacity.

(** [name_dict[x]], the dictionary from node numbers to node names, and
    [od_matrix.loc[(o, d), 'volumes']], the table read from
    [od_matrix.csv]: either lookup may raise. *)
Variable name_dict : value -> result string.
Variable od_matrix_loc : string -> string -> result R.

(** The element expression of the comprehension:
    [od_matrix.loc[(name_dict[row['a']], name_dict[row['b']]), 'volumes'] / 2]. *)
Definition cap_of (row : gmap string value) : result value :=
  let* a := getitem row "a" in
  let* origin := name_dict a in
  let* b := getitem row "b" in
  let* destination := name_dict b in
  let* volumes := od_matrix_loc origin destination in
  Ok (Num (volumes / 2)).

(** [links['cap'] = [... for _, row in links.iterrows()]] *)
Definition capacity_step (links : list (gmap string value))
  : result (list (gmap string value)) :=
  let* caps := comprehension cap_of links in
  setitem "cap" caps links.

End Capacity.

(** A dictionary that names every node Berlin, and a demand table with
    1000 trips for every pair of names. *)
Definition one_city (x : value) : result string := Ok "Berlin".

Definition flat_demand (origin destination : string) : result R := Ok 1000.

(** The two links of [car_AB], [rail_AB] with the numbers of their nodes,
    and the same table after the capacity step for a demand of 1000. *)
Definition numbered_AB : list (gmap string value) :=
  [<["a" := Num 0]> (<["b" := Num 1]> car_AB);
   <["a" := Num 0]> (<["b" := Num 1]> rail_AB)].

Definition capped_AB : list (gmap string value) :=
  [<["cap" := Num (1000 / 2)]> (<["a" := Num 0]> (<["b" := Num 1]> car_AB));
   <["cap" := Num (1000 / 2)]> (<["a" := Num 0]> (<["b" := Num 1]> rail_AB))].

(** ** The range of binary64 *)

Module Binary64.

(** A binary64 number: a real number in range, or a special value. *)
Inductive f64 : Type :=
| Fin (x : R)
| PInf
| NInf
| NaN.

(** The least real that rounds to infinity, [2^1024 - 2^970], and the
    largest that rounds to zero, [2^-1075]. *)
Definition overflow : R := IZR (2 ^ 1024 - 2 ^ 970).
Definition underflow : R := / IZR (2 ^ 1075).

(** The binary64 result of an operation whose exact result is [x], short
    of its rounding to 53 bits. *)
Definition to_f64 (x : R) : f64 :=
  if Rle_dec overflow x then PInf
  else if Rle_dec x (- overflow) then NInf
  else if Rle_dec (Rabs x) underflow then Fin 0
  else Fin x.

(** [a * b] on numpy floats: no exception, [0 * inf] is [nan]. *)
Definition mul (a b : f64) : f64 :=
  match a, b with
  | NaN, _ => NaN
  | _, NaN => NaN
  | Fin x, Fin y => to_f64 (x * y)
  | Fin x, PInf => if Rlt_dec 0 x then PInf else if Rlt_dec x 0 then NInf else NaN
  | PInf, Fin x => if Rlt_dec 0 x then PInf else if Rlt_dec x 0 then NInf else NaN
  | Fin x, NInf => if Rlt_dec 0 x then NInf else if Rlt_dec x 0 then PInf else NaN
  | NInf, Fin x => if Rlt_dec 0 x then NInf else if Rlt_dec x 0 then PInf else NaN
  | PInf, PInf => PInf
  | NInf, NInf => PInf
  | PInf, NInf => NInf
  | NInf, PInf => NInf
  end.

(** [np.exp(a)]: [inf] on overflow, zero on underflow, no exception. *)
Definition np_exp (a : f64) : f64 :=
  match a with
  | Fin x => to_f64 (exp x)
  | PInf => PInf
  | NInf => Fin 0
  | NaN => NaN
  end.

(** [x * y] on Python floats. *)
Definition py_mul (x y : value) : result f64 :=
  match x, y with
  | Num a, Num b => Ok (to_f64 (a * b))
  | _, _ => Raise TypeError
  end.

(** [x / y] on Python floats: a zero divisor raises, an overflow gives
    [inf]. *)
Definition py_div (x y : value) : result f64 :=
  match x, y with
  | Num a, Num b =>
      if Req_dec_T b 0 then Raise ZeroDivisionError else Ok (to_f64 (a / b))
  | _, _ => Raise TypeError
  end.

(** [return 0.5 * time * np.exp(volumes / capacity)] *)
Definition travel_time (volumes capacity time : value) : result f64 :=
  let* half := py_mul (Num 0.5) time in
  let* load := py_div volumes capacity in
  Ok (mul half (np_exp load)).

(** [a <= b] and [a < b] on binary64 numbers: false when either is
    [nan]. *)
Definition le (a b : f64) : Prop :=
  match a, b with
  | NaN, _ => False
  | _, NaN => False
  | NInf, _ => True
  | _, PInf => True
  | Fin x, Fin y => x <= y
  | _, _ => False
  end.

Definition lt (a b : f64) : Prop :=
  match a, b with
  | NaN, _ => False
  | _, NaN => False
  | Fin x, Fin y => x < y
  | NInf, NInf => False
  | NInf, _ => True
  | PInf, _ => False
  | Fin _, PInf => True
  | Fin _, NInf => False
  end.

(** Zero, a positive number or [inf]: what [np.exp] can return. *)
Definition nonneg (a : f64) : Prop :=
  match a with
  | Fin x => 0 <= x
  | PInf => True
  | _ => False
  end.

End Binary64.

(** ** Attributes of moderate size *)

(** The weighted attributes of [row] are costs of moderate size: none is
    negative and they add up to at most 700, so that the utility of the
    row lies between -700 and 0, where [np.exp] neither underflows nor
    overflows. *)
Definition moderate (weights : list (string * R)) (row : gmap string value) : Prop :=
  Forall (fun aw => 0 <= snd aw * attribute row (fst aw)) weights /\
  big_sum (map (fun aw => snd aw * attribute row (fst aw)) weights) <= 700.

(** * Properties *)

(** ** The definitions on the example tables *)

Example utility_car_AB : utility ["time"] [1.5] car_AB = Ok (- (0 + 3 * 1.5)).
Proof. reflexivity. Qed.

Example utility_rail_AB : utility ["time"] [1.5] rail_AB = Ok (- (0 + 2 * 1.5)).
Proof. reflexivity. Qed.

Example mnl_AB :
  mnl_default [car_AB; rail_AB] =
  Ok [exp (- (0 + 3 * 1.5)) / (0 + exp (- (0 + 3 * 1.5)) + exp (- (0 + 2 * 1.5)));
      exp (- (0 + 2 * 1.5)) / (0 + exp (- (0 + 3 * 1.5)) + exp (- (0 + 2 * 1.5)))].
Proof. reflexivity. Qed.

Example mnl_missing_column :
  mnl [car_AB; rail_AB] ["time"; "cost"] [1.5; 0.1] = Raise (KeyError "cost").
Proof. reflexivity. Qed.

Example mnl_short_beta :
  mnl [car_AB; rail_AB] ["time"; "dist"] [1.5] = Raise IndexError.
Proof. reflexivity. Qed.

Example mnl_string_column :
  mnl [car_AB; rail_AB] ["mode"] [1.5] = Raise TypeError.
Proof. reflexivity. Qed.

Example time_2_of_rail_AB : time_2_of rail_AB = Ok (Num 2).
Proof. reflexivity. Qed.

Example time_2_of_lone_link : time_2_of lone_link = Ok (Num 1).
Proof. reflexivity. Qed.

Example setitem_wrong_length :
  setitem "time_2" [Num 1] [car_AB; rail_AB] = Raise ValueError.
Proof. reflexivity. Qed.

Lemma travel_time_num (v C T : R) :
  C <> 0 -> travel_time (Num v) (Num C) (Num T) = Ok (0.5 * T * exp (v / C)).
Proof.
  intros HC. unfold travel_time; simpl.
  destruct (Req_dec_T C 0) as [E | _]; [contradiction | reflexivity].
Qed.

Example time_2_of_car_AB :
  time_2_of car_AB = Ok (Num (0.5 * 3 * exp (400 / 500))).
Proof.
  change (time_2_of car_AB)
    with (let* t := travel_time (Num 400) (Num 500) (Num 3) in Ok (Num t)).
  rewrite travel_time_num by lra. reflexivity.
Qed.

(** ** [travel_time] *)

Lemma travel_time_zero_capacity (v T : R) :
  travel_time (Num v) (Num 0) (Num T) = Raise ZeroDivisionError.
Proof.
  unfold travel_time; simpl.
  destruct (Req_dec_T 0 0) as [_ | N]; [reflexivity | now contradiction N].
Qed.

(** C2: on numbers, with a capacity other than zero, [travel_time] returns
    [0.5 * time * exp (volumes / capacity)]; with no volume, a positive
    capacity and a free-flow time [T >= 0] that is [0.5 * T], which is not
    the free-flow time when [T > 0]. *)
Theorem travel_time_formula (v C T : R) :
  (C <> 0 ->
   travel_time (Num v) (Num C) (Num T) = Ok (0.5 * T * exp (v / C))) /\
  (0 < C -> 0 <= T ->
   travel_time (Num 0) (Num C) (Num T) = Ok (0.5 * T) /\
   (0 < T -> travel_time (Num 0) (Num C) (Num T) <> Ok T)).
Proof.
  split.
  - apply travel_time_num.
  - intros HC HT.
    assert (E : travel_time (Num 0) (Num C) (Num T) = Ok (0.5 * T)).
    { rewrite travel_time_num by lra.
      replace (0 / C) with 0 by (field; lra).
      rewrite exp_0. f_equal. lra. }
    split; [exact E |].
    intros HT' Habs. rewrite E in Habs. injection Habs as Habs. lra.
Qed.

Lemma travel_time_formula_witness :
  travel_time (Num 0) (Num 2) (Num 3) = Ok (0.5 * 3) /\
  travel_time (Num 0) (Num 2) (Num 3) <> Ok 3.
Proof.
  destruct (travel_time_formula 0 2 3) as [_ H].
  destruct H as [E N]; [lra | lra |].
  split; [exact E | apply N; lra].
Defined.

(** C10: for a capacity [C > 0] and a free-flow time [T > 0] the travel
    time is below the free-flow time exactly for volumes below
    [C * ln 2], equal to it exactly at [C * ln 2], and above it exactly
    for volumes above [C * ln 2]. *)
Theorem travel_time_break_even (v C T : R) :
  0 < C -> 0 < T ->
  exists t,
    travel_time (Num v) (Num C) (Num T) = Ok t /\
    (t < T <-> v < C * ln 2) /\
    (t = T <-> v = C * ln 2) /\
    (T < t <-> C * ln 2 < v).
Proof.
  intros HC HT.
  exists (0.5 * T * exp (v / C)).
  split; [apply travel_time_num; lra |].
  assert (H2 : exp (ln 2) = 2) by (apply exp_ln; lra).
  assert (Hlt : forall a b, a < b <-> a / C < b / C).
  { intros a b. unfold Rdiv. split; intros H.
    - apply Rmult_lt_compat_r; [now apply Rinv_0_lt_compat | exact H].
    - apply Rmult_lt_reg_r in H; [exact H | now apply Rinv_0_lt_compat]. }
  assert (Hq : C * ln 2 / C = ln 2) by (field; lra).
  assert (Hexp : forall a b, a < b <-> exp a < exp b).
  { intros a b. split; [apply exp_increasing | apply exp_lt_inv]. }
  assert (Hbelow : v < C * ln 2 <-> exp (v / C) < 2).
  { rewrite (Hlt v), Hq, (Hexp (v / C)), H2. tauto. }
  assert (Habove : C * ln 2 < v <-> 2 < exp (v / C)).
  { rewrite (Hlt _ v), Hq, (Hexp _ (v / C)), H2. tauto. }
  repeat split; intros H.
  - apply Hbelow. nra.
  - apply Hbelow in H. nra.
  - destruct (Rtotal_order v (C * ln 2)) as [L | [E | G]]; [| exact E |].
    + apply Hbelow in L. nra.
    + apply Habove in G. nra.
  - subst v. rewrite Hq, H2. lra.
  - apply Habove. nra.
  - apply Habove in H. nra.
Qed.

Lemma travel_time_break_even_witness :
  exists t,
    travel_time (Num 1) (Num 2) (Num 3) = Ok t /\
    (t < 3 <-> 1 < 2 * ln 2) /\
    (t = 3 <-> 1 = 2 * ln 2) /\
    (3 < t <-> 2 * ln 2 < 1).
Proof. apply travel_time_break_even; lra. Defined.

(** C5, as the code has it: the capacity is not validated.  A capacity of
    zero makes the division raise [ZeroDivisionError]; a negative capacity
    is accepted without an error and the result is the value of
    [0.5 * T * exp (v / C)]. *)
Theorem travel_time_capacity_unchecked (v C T : R) :
  travel_time (Num v) (Num 0) (Num T) = Raise ZeroDivisionError /\
  (C < 0 ->
   travel_time (Num v) (Num C) (Num T) = Ok (0.5 * T * exp (v / C))).
Proof.
  split; [apply travel_time_zero_capacity |].
  intros HC. apply travel_time_num. lra.
Qed.

Lemma travel_time_capacity_unchecked_witness :
  travel_time (Num 1) (Num (-2)) (Num 3) = Ok (0.5 * 3 * exp (1 / -2)).
Proof.
  destruct (travel_time_capacity_unchecked 1 (-2) 3) as [_ H].
  apply H. lra.
Defined.

(** C5 fails as stated: with the negative capacity [-1] no error is
    raised, the call returns a number. *)
Lemma travel_time_negative_capacity_accepted :
  travel_time (Num 1) (Num (-1)) (Num 1) = Ok (0.5 * 1 * exp (1 / -1)).
Proof. apply travel_time_num. lra. Qed.

(** ** Comprehensions and sums *)

Lemma comprehension_ok {A B : Type} (f : A -> result B) (g : A -> B) (xs : list A) :
  Forall (fun x => f x = Ok (g x)) xs ->
  comprehension f xs = Ok (map g xs).
Proof.
  induction 1 as [| x xs Hx _ IH]; simpl.
  - reflexivity.
  - now rewrite Hx, IH.
Qed.

Lemma comprehension_ext {A B : Type} (f g : A -> result B) (xs : list A) :
  (forall x, f x = g x) -> comprehension f xs = comprehension g xs.
Proof.
  intros E. induction xs as [| x xs IH]; simpl.
  - reflexivity.
  - now rewrite E, IH.
Qed.

Lemma comprehension_map {A B C : Type} (f : B -> result C) (h : A -> B) (xs : list A) :
  comprehension f (map h xs) = comprehension (fun x => f (h x)) xs.
Proof.
  induction xs as [| x xs IH]; simpl.
  - reflexivity.
  - now rewrite IH.
Qed.

Lemma comprehension_length {A B : Type} (f : A -> result B) (xs : list A) (ys : list B) :
  comprehension f xs = Ok ys -> length ys = length xs.
Proof.
  revert ys. induction xs as [| x xs IH]; simpl; intros ys H.
  - now injection H as <-.
  - destruct (f x) as [y | e]; simpl in H; [| discriminate].
    destruct (comprehension f xs) as [ys' | e]; simpl in H; [| discriminate].
    injection H as <-. simpl. f_equal. now apply IH.
Qed.

Lemma py_sum_big_sum (xs : list R) : py_sum xs = big_sum xs.
Proof.
  unfold py_sum, big_sum. apply fold_symmetric; intros; ring.
Qed.


Lemma big_sum_exp_pos (vs : list R) : vs <> [] -> 0 < big_sum (map exp vs).
Proof.
  destruct vs as [| v vs]; [congruence | intros _].
  revert v. induction vs as [| w vs IH]; intros v; simpl.
  - pose proof (exp_pos v). lra.
  - pose proof (exp_pos v). specialize (IH w). simpl in IH. lra.
Qed.

Lemma big_sum_exp_nonneg (vs : list R) : 0 <= big_sum (map exp vs).
Proof.
  destruct vs as [| v vs]; [simpl; lra |].
  apply Rlt_le, big_sum_exp_pos. discriminate.
Qed.

Lemma exp_le_big_sum (vs : list R) (v : R) :
  In v vs -> exp v <= big_sum (map exp vs).
Proof.
  induction vs as [| w vs IH]; simpl; [tauto |].
  intros [-> | H].
  - pose proof (big_sum_exp_nonneg vs). lra.
  - specialize (IH H). pose proof (exp_pos w). lra.
Qed.

Lemma exp_lt_big_sum (vs : list R) (v : R) :
  In v vs -> (2 <= length vs)%nat -> exp v < big_sum (map exp vs).
Proof.
  destruct vs as [| w vs]; simpl; [tauto |].
  intros H L.
  assert (N : vs <> []) by (destruct vs; simpl in L; [lia | discriminate]).
  pose proof (big_sum_exp_pos vs N) as P.
  destruct H as [-> | H].
  - lra.
  - pose proof (exp_le_big_sum vs v H). pose proof (exp_pos w). lra.
Qed.

(** ** [mnl] *)

Lemma los_term_shift row col cols b beta i :
  los_term row (col :: cols) (b :: beta) (S i) = los_term row cols beta i.
Proof. reflexivity. Qed.

Lemma los_terms_ok (row : gmap string value) (cols : list string) (beta : list R) :
  length cols = length beta -> populated cols row ->
  comprehension (los_term row cols beta) (seq 0 (length cols)) =
  Ok (map (fun aw => attribute row (fst aw) * snd aw) (combine cols beta)).
Proof.
  revert beta. induction cols as [| col cols IH]; intros beta L P.
  - reflexivity.
  - destruct beta as [| b beta]; [discriminate |].
    injection L as L. inversion P as [| ? ? [x Hx] P']; subst.
    cbn [length seq comprehension].
    rewrite <- seq_shift, comprehension_map.
    rewrite (comprehension_ext _ (los_term row cols beta))
      by (intros i; apply los_term_shift).
    rewrite (IH beta L P').
    unfold los_term, index, getitem, attribute; simpl. rewrite Hx. reflexivity.
Qed.

Lemma utility_ok (cols : list string) (beta : list R) (row : gmap string value) :
  length cols = length beta -> populated cols row ->
  utility cols beta row = Ok (disutility (combine cols beta) row).
Proof.
  intros L P. unfold utility, disutility.
  rewrite (los_terms_ok row cols beta L P). simpl.
  rewrite py_sum_big_sum. do 3 f_equal.
  apply map_ext. intros [a w]; simpl. ring.
Qed.

Lemma mnl_ok (od_pair : list (gmap string value)) (cols : list string) (beta : list R) :
  length cols = length beta -> Forall (populated cols) od_pair ->
  mnl od_pair cols beta =
  Ok (map (fun val => exp val / big_sum (map exp (map (disutility (combine cols beta)) od_pair)))
          (map (disutility (combine cols beta)) od_pair)).
Proof.
  intros L P. unfold mnl.
  rewrite (comprehension_ok _ (disutility (combine cols beta))).
  - simpl. now rewrite py_sum_big_sum.
  - eapply Forall_impl; [exact P |]. intros row Hrow. now apply utility_ok.
Qed.

(** C1: when there are as many weights as attribute columns and every link
    of the group holds a number in each of them, [mnl] returns one
    probability per link, in the order of the links; the probability of
    link [i] is [exp v_i / Σ_j exp v_j] with
    [v_i = - Σ_k weight_k * attribute_k(link_i)]. *)
Theorem mnl_logit (od_pair : list (gmap string value))
    (los_col_names : list string) (beta : list R) :
  length los_col_names = length beta ->
  Forall (populated los_col_names) od_pair ->
  let v := disutility (combine los_col_names beta) in
  exists p,
    mnl od_pair los_col_names beta = Ok p /\
    length p = length od_pair /\
    forall i row, nth_error od_pair i = Some row ->
                  nth_error p i = Some (logit (map v od_pair) (v row)).
Proof.
  intros L P v. eexists. split; [apply (mnl_ok _ _ _ L P) |].
  fold v. split.
  - now rewrite !length_map.
  - intros i row Hi. rewrite map_map.
    now rewrite (map_nth_error _ _ _ Hi).
Qed.

Lemma populated_time_AB : Forall (populated ["time"]) [car_AB; rail_AB].
Proof.
  repeat constructor; eexists; reflexivity.
Qed.

Lemma mnl_logit_witness :
  exists p,
    mnl [car_AB; rail_AB] ["time"] [1.5] = Ok p /\
    length p = 2%nat /\
    forall i row, nth_error [car_AB; rail_AB] i = Some row ->
      nth_error p i =
      Some (logit (map (disutility [("time", 1.5)]) [car_AB; rail_AB])
                  (disutility [("time", 1.5)] row)).
Proof.
  apply (mnl_logit [car_AB; rail_AB] ["time"] [1.5]).
  - reflexivity.
  - exact populated_time_AB.
Defined.


Lemma moderate_time_AB :
  Forall (moderate (combine ["time"] [1.5])) [car_AB; rail_AB].
Proof.
  repeat constructor; cbn [map combine big_sum fold_right fst snd].
  - change (attribute car_AB "time") with 3. lra.
  - change (attribute car_AB "time") with 3. lra.
  - change (attribute rail_AB "time") with 2. lra.
  - change (attribute rail_AB "time") with 2. lra.
Qed.



(** C6 fails as stated: on the empty group [mnl] raises nothing, it
    returns the empty list. *)
Lemma mnl_empty_group_returns : mnl_default [] = Ok [].
Proof. reflexivity. Qed.

(** C6, as the code has it: for an empty group, whatever the columns and
    weights, [mnl] returns the empty list of probabilities and raises no
    error. *)
Theorem mnl_empty_group (los_col_names : list string) (beta : list R) :
  mnl [] los_col_names beta = Ok [].
Proof. reflexivity. Qed.

(** ** The column [time_2] *)

Lemma comprehension_total {A B : Type} (f : A -> result B) (xs : list A) :
  Forall (fun x => exists y, f x = Ok y) xs ->
  exists ys, comprehension f xs = Ok ys.
Proof.
  induction 1 as [| x xs [y Hy] _ [ys IH]]; simpl.
  - now exists [].
  - exists (y :: ys). now rewrite Hy, IH.
Qed.

Lemma comprehension_nth {A B : Type} (f : A -> result B) (xs : list A)
    (ys : list B) (i : nat) (x : A) :
  comprehension f xs = Ok ys -> nth_error xs i = Some x ->
  exists y, nth_error ys i = Some y /\ f x = Ok y.
Proof.
  revert ys i. induction xs as [| x0 xs IH]; intros ys i H Hi.
  - destruct i; discriminate.
  - simpl in H.
    destruct (f x0) as [y0 | e] eqn:E0; simpl in H; [| discriminate].
    destruct (comprehension f xs) as [ys' | e]; simpl in H; [| discriminate].
    injection H as <-.
    destruct i as [| i]; simpl in Hi |- *.
    + injection Hi as <-. now exists y0.
    + now apply IH.
Qed.

Lemma setitem_nth (col : string) (vals : list value)
    (links : list (gmap string value)) (i : nat) (row : gmap string value) (v : value) :
  nth_error links i = Some row -> nth_error vals i = Some v ->
  nth_error (zip_with (fun r x => <[col := x]> r) links vals) i =
  Some (<[col := v]> row).
Proof.
  revert vals i. induction links as [| r links IH]; intros vals i Hr Hv.
  - destruct i; discriminate.
  - destruct vals as [| x vals]; [destruct i; discriminate |].
    destruct i as [| i]; simpl in *.
    + congruence.
    + now apply IH.
Qed.

Lemma time_2_of_total (row : gmap string value) :
  congestible row -> exists t, time_2_of row = Ok t.
Proof.
  intros (m & t & Hm & Ht & Hcar).
  unfold time_2_of, getitem. rewrite Hm; simpl.
  destruct (eq_str m "car") eqn:E.
  - destruct (Hcar eq_refl) as (v & C & T & Hv & HC & -> & NC).
    rewrite Hv, HC, Ht; simpl.
    rewrite (travel_time_num v C T NC); simpl. eauto.
  - rewrite Ht. eauto.
Qed.

Lemma congestion_step_rows (links : list (gmap string value)) :
  Forall congestible links ->
  exists links',
    congestion_step links = Ok links' /\
    length links' = length links /\
    forall i row, nth_error links i = Some row ->
      exists t, time_2_of row = Ok t /\
                nth_error links' i = Some (<["time_2" := t]> row).
Proof.
  intros W.
  destruct (comprehension_total time_2_of links) as [times HT].
  { eapply Forall_impl; [exact W |]. intros row. apply time_2_of_total. }
  pose proof (comprehension_length _ _ _ HT) as HL.
  exists (zip_with (fun r x => <["time_2" := x]> r) links times).
  split; [| split].
  - unfold congestion_step, setitem. rewrite HT; simpl.
    now rewrite HL, Nat.eqb_refl.
  - rewrite length_zip_with. lia.
  - intros i row Hi.
    destruct (comprehension_nth _ _ _ _ _ HT Hi) as (t & Ht & Hrow).
    exists t. split; [exact Hrow | now apply setitem_nth].
Qed.

Lemma time_2_kept (row : gmap string value) (t : value) (col : string) :
  col <> "time_2" -> <["time_2" := t]> row !! col = row !! col.
Proof. intros Hc. apply lookup_insert_ne. congruence. Qed.


Lemma congestible_AB : Forall congestible [car_AB; rail_AB].
Proof.
  repeat constructor.
  - exists (Str "car"), (Num 3). repeat split; try reflexivity.
    intros _. exists 400, 500, 3. repeat split; try reflexivity. lra.
  - exists (Str "rail"), (Num 2). repeat split; try reflexivity.
    simpl. discriminate.
Qed.


(** ** The iteration loop *)

Lemma column_total (col : string) (links : list (gmap string value)) :
  Forall (fun row => exists x, row !! col = Some x) links ->
  exists cells, column col links = Ok cells.
Proof.
  intros H. apply comprehension_total.
  eapply Forall_impl; [exact H |].
  intros row [x Hx]. exists x. unfold getitem. now rewrite Hx.
Qed.

Lemma column_numeric (col : string) (links : list (gmap string value)) (cells : list value) :
  Forall (fun row => exists p, row !! col = Some (Num p)) links ->
  column col links = Ok cells ->
  Forall (fun c => exists p, c = Num p) cells.
Proof.
  intros H. revert cells. unfold column.
  induction H as [| row links [p Hp] _ IH]; simpl; intros cells E.
  - injection E as <-. constructor.
  - unfold getitem in E at 1. rewrite Hp in E; simpl in E.
    destruct (comprehension _ links) as [cs | e]; simpl in E; [| discriminate].
    injection E as <-. constructor; [now exists p | now apply IH].
Qed.

Lemma mode_share_total (m : string) (links : list (gmap string value)) :
  Forall loop_ready links -> exists share, mode_share m links = Ok share.
Proof.
  intros W. unfold mode_share.
  destruct (column_total "mode" links) as [modes ->].
  { eapply Forall_impl; [exact W |]. intros row [(x & t & Hx & _) _]. eauto. }
  assert (Wp : Forall (fun row => exists p, row !! "probs_4" = Some (Num p)) links).
  { eapply Forall_impl; [exact W |]. now intros row [_ H]. }
  destruct (column_total "probs_4" links) as [cells Hc].
  { eapply Forall_impl; [exact Wp |]. intros row [p Hp]. eauto. }
  rewrite Hc; simpl.
  pose proof (column_numeric _ _ _ Wp Hc) as Hnum.
  destruct (comprehension_total as_num
              (map snd (List.filter (fun mc => eq_str (fst mc) m) (combine modes cells))))
    as [probs ->]; [| simpl; eauto].
  apply List.Forall_forall. intros c Hin.
  apply in_map_iff in Hin as ([x c'] & <- & Hin).
  apply filter_In in Hin as [Hin _]. apply in_combine_r in Hin.
  destruct (proj1 (List.Forall_forall _ _) Hnum _ Hin) as [p ->].
  now exists p.
Qed.

Lemma congestion_step_ready (links : list (gmap string value)) :
  Forall loop_ready links ->
  exists links', congestion_step links = Ok links' /\ Forall loop_ready links'.
Proof.
  intros W.
  assert (Wc : Forall congestible links).
  { eapply Forall_impl; [exact W |]. now intros row [H _]. }
  destruct (congestion_step_rows links Wc) as (links' & Hstep & Hlen & Hrows).
  exists links'. split; [exact Hstep |].
  apply List.Forall_forall. intros row' Hin.
  apply In_nth_error in Hin as [i Hi'].
  assert (Hlt : (i < length links)%nat).
  { rewrite <- Hlen. apply nth_error_Some. congruence. }
  destruct (nth_error links i) as [row |] eqn:Hi;
    [| apply nth_error_None in Hi; lia].
  destruct (Hrows i row Hi) as (t & _ & Hi'').
  assert (row' = <["time_2" := t]> row) as -> by congruence.
  destruct (proj1 (List.Forall_forall _ _) W row (nth_error_In _ _ Hi))
    as [(m0 & t0 & Hm & Ht & Hcar) [p Hp]].
  split.
  - exists m0, t0. repeat (rewrite time_2_kept by discriminate).
    split; [exact Hm | split; [exact Ht |]].
    intros E. destruct (Hcar E) as (v & C & T & Hv & HC & HT & NC).
    exists v, C, T. repeat (rewrite time_2_kept by discriminate). auto.
  - exists p. rewrite time_2_kept by discriminate. exact Hp.
Qed.

Section LoopFacts.

Variable body : list (gmap string value) -> result (list (gmap string value)).

Lemma for_each_app (js1 js2 : list nat) st :
  for_each body (js1 ++ js2) st =
  let* st' := for_each body js1 st in for_each body js2 st'.
Proof.
  revert st. induction js1 as [| j js1 IH]; intros st; simpl.
  - reflexivity.
  - destruct (round body j st) as [st' | e]; simpl; [apply IH | reflexivity].
Qed.

Lemma iterate_S (n : nat) (links : list (gmap string value)) :
  iterate body (S n) links =
  let* st := iterate body n links in round body n st.
Proof.
  unfold iterate. rewrite seq_S, for_each_app. simpl.
  destruct (for_each body (seq 0 n) (links, [])) as [st | e]; simpl;
    [| reflexivity].
  now destruct (round body n st).
Qed.

Lemma iterate_rounds (n : nat) (links links' : list (gmap string value))
    (out : list report) :
  iterate body n links = Ok (links', out) <-> rounds body n links links' out.
Proof.
  revert links' out. induction n as [| n IH]; intros links' out.
  - split.
    + intros H. injection H as <- <-. constructor.
    + intros H. inversion H; subst. reflexivity.
  - rewrite iterate_S. split.
    + intros H.
      destruct (iterate body n links) as [[mid out0] | e] eqn:E;
        simpl in H; [| discriminate].
      unfold round in H; simpl in H.
      destruct (body mid) as [l |] eqn:Eb; simpl in H; [| discriminate].
      destruct (mode_share "car" l) as [car |] eqn:Ec; simpl in H;
        [| discriminate].
      destruct (mode_share "rail" l) as [rail |] eqn:Er; simpl in H;
        [| discriminate].
      injection H as <- <-.
      apply rounds_S with (mid := mid); auto. now apply IH.
    + intros H. inversion H as [| ? ? mid ? out0 car rail Hn Hb Hc Hr]; subst.
      apply IH in Hn. rewrite Hn; simpl.
      unfold round; simpl. now rewrite Hb; simpl; rewrite Hc; simpl; rewrite Hr.
Qed.

Lemma iterate_raise (n : nat) (links : list (gmap string value)) (e : exn) :
body links = Raise e -> iterate body (S n) links = Raise e.
Proof.
intros H. unfold iterate. simpl. unfold round; simpl. now rewrite H.
Qed.

Lemma rounds_printed (n : nat) (links links' : list (gmap string value))
    (out : list report) :
  rounds body n links links' out ->
  length out = n /\ map iteration out = seq 0 n.
Proof.
  induction 1 as [| n links mid links' out car rail _ [IHl IHm] _ _ _].
  - now split.
  - split.
    + rewrite length_app; simpl. lia.
    + rewrite map_app, seq_S, IHm. reflexivity.
Qed.

Lemma rounds_fixed (n : nat) (links : list (gmap string value)) car rail :
  body links = Ok links ->
  mode_share "car" links = Ok car ->
  mode_share "rail" links = Ok rail ->
  rounds body n links links (map (fun j => Report j car rail) (seq 0 n)).
Proof.
  intros Hb Hc Hr. induction n as [| n IH].
  - constructor.
  - rewrite seq_S, map_app. simpl.
    now apply rounds_S with (mid := links).
Qed.

Lemma rounds_invariant (Inv : list (gmap string value) -> Prop) (n : nat)
    (links : list (gmap string value)) :
  (forall l, Inv l ->
     exists l', body l = Ok l' /\ Inv l' /\
                (exists car, mode_share "car" l' = Ok car) /\
                (exists rail, mode_share "rail" l' = Ok rail)) ->
  Inv links ->
  exists links' out, rounds body n links links' out /\ Inv links'.
Proof.
  intros Step H0. induction n as [| n (mid & out & Hn & Hmid)].
  - exists links, []. split; [constructor | exact H0].
  - destruct (Step mid Hmid) as (l' & Hb & Hl' & [car Hc] & [rail Hr]).
    exists l', (out ++ [Report n car rail])%list.
    split; [now apply rounds_S with (mid := mid) | exact Hl'].
Qed.

End LoopFacts.

(** C9: whatever update the loop body makes, the loop returns a table and
    its printed lines exactly when ten passes, numbered 0 to 9, lead from
    the input table to that table; ten lines are printed then.  No
    convergence test shortens it: a table that the body leaves unchanged
    still goes through ten passes.  When the body and the [print] succeed
    on every table of an invariant set that holds the input, the loop
    returns the table after the tenth pass. *)
Theorem equilibrium_loop_ten_rounds
    (body : list (gmap string value) -> result (list (gmap string value)))
    (links : list (gmap string value)) :
  (forall links' out,
      equilibrium_loop body links = Ok (links', out) <->
      rounds body 10 links links' out) /\
  (forall links' out,
      equilibrium_loop body links = Ok (links', out) ->
      length out = 10%nat /\ map iteration out = seq 0 10) /\
  (forall car rail,
      body links = Ok links ->
      mode_share "car" links = Ok car ->
      mode_share "rail" links = Ok rail ->
      equilibrium_loop body links =
      Ok (links, map (fun j => Report j car rail) (seq 0 10))) /\
  (forall Inv : list (gmap string value) -> Prop,
      (forall l, Inv l ->
         exists l', body l = Ok l' /\ Inv l' /\
                    (exists car, mode_share "car" l' = Ok car) /\
                    (exists rail, mode_share "rail" l' = Ok rail)) ->
      Inv links ->
      exists links' out,
        equilibrium_loop body links = Ok (links', out) /\
        rounds body 10 links links' out /\ Inv links').
Proof.
  unfold equilibrium_loop. repeat split.
  - apply iterate_rounds.
  - apply iterate_rounds.
  - apply iterate_rounds in H. now apply rounds_printed in H.
  - apply iterate_rounds in H. now apply rounds_printed in H.
  - intros car rail Hb Hc Hr. apply iterate_rounds. now apply rounds_fixed.
  - intros Inv Step H0.
    destruct (rounds_invariant body Inv 10 links Step H0) as (l' & out & Hr & Hl').
    exists l', out. split; [now apply iterate_rounds | now split].
Qed.

Lemma loop_ready_AB : Forall loop_ready [car_AB; rail_AB].
Proof.
  pose proof congestible_AB as H.
  inversion H as [| ? ? Hcar H']; subst. inversion H' as [| ? ? Hrail _]; subst.
  repeat constructor; try assumption.
  - exists 0.25. reflexivity.
  - exists 0.75. reflexivity.
Qed.

Lemma equilibrium_loop_ten_rounds_witness :
  exists links' out,
    equilibrium_loop congestion_step [car_AB; rail_AB] = Ok (links', out) /\
    rounds congestion_step 10 [car_AB; rail_AB] links' out /\
    Forall loop_ready links'.
Proof.
  apply (equilibrium_loop_ten_rounds congestion_step [car_AB; rail_AB]).
  - intros l Hl.
    destruct (congestion_step_ready l Hl) as (l' & Hstep & Hl').
    exists l'. split; [exact Hstep | split; [exact Hl' |]].
    split; now apply mode_share_total.
  - exact loop_ready_AB.
Defined.

(** * Further properties of the code *)

(** ** [travel_time]: outcomes *)


(** X1: [travel_time] raises [TypeError] exactly when one of its three
    arguments is a string. *)
Theorem travel_time_type_error (volumes capacity time : value) :
  travel_time volumes capacity time = Raise TypeError <->
  (exists s, volumes = Str s) \/ (exists s, capacity = Str s) \/
  (exists s, time = Str s).
Proof.
  split.
  - unfold travel_time.
    destruct time as [T | s]; simpl; [| now intros _; right; right; exists s].
    destruct volumes as [v | s]; simpl; [| now intros _; left; exists s].
    destruct capacity as [C | s]; simpl; [| now intros _; right; left; exists s].
    destruct (Req_dec_T C 0); simpl; discriminate.
  - unfold travel_time. intros [[s ->] | [[s ->] | [s ->]]].
    + destruct time; reflexivity.
    + destruct time, volumes; reflexivity.
    + reflexivity.
Qed.

(** X4: the travel time depends on volume and capacity through their
    ratio only: multiplying both by the same factor [k <> 0] (a change of
    the unit of trips) leaves the result, or the error, unchanged. *)
Theorem travel_time_scale_invariant (k v C T : R) :
  k <> 0 ->
  travel_time (Num (k * v)) (Num (k * C)) (Num T) =
  travel_time (Num v) (Num C) (Num T).
Proof.
  intros Hk. destruct (Req_dec_T C 0) as [-> | N].
  - rewrite Rmult_0_r. now rewrite !travel_time_zero_capacity.
  - rewrite !travel_time_num; [| exact N | nra].
    do 3 f_equal. field. now split.
Qed.

Lemma travel_time_scale_invariant_witness :
  travel_time (Num (2 * 400)) (Num (2 * 500)) (Num 3) =
  travel_time (Num 400) (Num 500) (Num 3).
Proof. apply travel_time_scale_invariant. lra. Defined.

(** ** [mnl]: when it returns, and on what it depends *)

Lemma comprehension_ext_in {A B : Type} (f g : A -> result B) (xs : list A) :
  (forall x, In x xs -> f x = g x) -> comprehension f xs = comprehension g xs.
Proof.
  induction xs as [| x xs IH]; simpl; intros E.
  - reflexivity.
  - rewrite (E x) by now left. rewrite IH; [reflexivity |].
    intros y Hy. apply E. now right.
Qed.

Lemma comprehension_ok_each {A B : Type} (f : A -> result B) (xs : list A)
    (ys : list B) :
  comprehension f xs = Ok ys -> Forall (fun x => exists y, f x = Ok y) xs.
Proof.
  revert ys. induction xs as [| x xs IH]; simpl; intros ys H.
  - constructor.
  - destruct (f x) as [y | e] eqn:E; simpl in H; [| discriminate].
    destruct (comprehension f xs) as [ys' | e]; simpl in H; [| discriminate].
    constructor; [now exists y | now apply (IH ys')].
Qed.

Lemma los_term_ok_inv (row : gmap string value) (cols : list string)
    (beta : list R) (i : nat) (t : R) :
  los_term row cols beta i = Ok t ->
  exists col x b,
    nth_error cols i = Some col /\ row !! col = Some (Num x) /\
    nth_error beta i = Some b.
Proof.
  unfold los_term, index, getitem.
  destruct (nth_error cols i) as [col |]; simpl; [| discriminate].
  destruct (row !! col) as [[x | s] |] eqn:E; simpl; try discriminate.
  - destruct (nth_error beta i) as [b |]; simpl; [| discriminate].
    intros _. now exists col, x, b.
  - destruct (nth_error beta i); simpl; discriminate.
Qed.

Lemma utility_firstn (cols : list string) (beta : list R) (row : gmap string value) :
  utility cols beta row = utility cols (firstn (length cols) beta) row.
Proof.
  unfold utility. f_equal. apply comprehension_ext_in.
  intros i Hi. apply in_seq in Hi.
  unfold los_term, index. rewrite nth_error_firstn.
  destruct (Nat.ltb_spec i (length cols)); [reflexivity | lia].
Qed.

Lemma utility_ok_inv (cols : list string) (beta : list R)
    (row : gmap string value) (u : R) :
  utility cols beta row = Ok u ->
  (length cols <= length beta)%nat /\ populated cols row.
Proof.
  unfold utility.
  destruct (comprehension _ (seq 0 (length cols))) as [ts | e] eqn:E;
    simpl; [intros _ | discriminate].
  apply comprehension_ok_each in E.
  assert (T : forall i, (i < length cols)%nat ->
                        exists col x b, nth_error cols i = Some col /\
                                        row !! col = Some (Num x) /\
                                        nth_error beta i = Some b).
  { intros i Hi.
    destruct (proj1 (List.Forall_forall _ _) E i) as [t Ht].
    - apply in_seq. lia.
    - now apply los_term_ok_inv in Ht. }
  split.
  - destruct cols as [| c cols]; simpl; [lia |].
    destruct (T (length cols)) as (_ & _ & b & _ & _ & Hb); [simpl; lia |].
    assert (length cols < length beta)%nat
      by (apply nth_error_Some; congruence).
    lia.
  - apply List.Forall_forall. intros col Hin.
    apply In_nth_error in Hin as [i Hi].
    destruct (T i) as (col' & x & _ & Hc & Hx & _).
    + apply nth_error_Some. congruence.
    + exists x. congruence.
Qed.

Lemma mnl_firstn (od_pair : list (gmap string value)) (cols : list string)
    (beta : list R) :
  mnl od_pair cols beta = mnl od_pair cols (firstn (length cols) beta).
Proof.
  unfold mnl. f_equal. apply comprehension_ext. intros row. apply utility_firstn.
Qed.

Lemma mnl_ok_le (od_pair : list (gmap string value)) (cols : list string)
    (beta : list R) :
  (length cols <= length beta)%nat -> Forall (populated cols) od_pair ->
  mnl od_pair cols beta =
  Ok (map (logit (map (disutility (combine cols beta)) od_pair))
          (map (disutility (combine cols beta)) od_pair)).
Proof.
  intros L P. rewrite mnl_firstn, mnl_ok.
  - now rewrite <- combine_firstn_l.
  - rewrite length_firstn. lia.
  - exact P.
Qed.

(** X5: [mnl] returns a list of probabilities exactly when the group is
    empty, or there are at least as many weights as attribute columns and
    every link of the group holds a number in every attribute column. *)
Theorem mnl_returns_iff (od_pair : list (gmap string value))
    (los_col_names : list string) (beta : list R) :
  (exists p, mnl od_pair los_col_names beta = Ok p) <->
  od_pair = [] \/
  ((length los_col_names <= length beta)%nat /\
   Forall (populated los_col_names) od_pair).
Proof.
  split.
  - intros [p H]. destruct od_pair as [| row rest]; [now left | right].
    unfold mnl in H.
    destruct (comprehension _ (row :: rest)) as [v | e] eqn:E; simpl in H;
      [| discriminate].
    apply comprehension_ok_each in E.
    split.
    + inversion E as [| ? ? [u Hu] _]; subst.
      now apply utility_ok_inv in Hu.
    + eapply Forall_impl; [exact E |].
      intros r [u Hu]. now apply utility_ok_inv in Hu.
  - intros [-> | [L P]].
    + now exists [].
    + eexists. now apply mnl_ok_le.
Qed.

(** X6: [mnl] reads only the first [len(los_col_names)] weights: further
    entries of [beta] change neither the result nor the error. *)
Theorem mnl_ignores_extra_weights (od_pair : list (gmap string value))
    (los_col_names : list string) (beta extra : list R) :
  length los_col_names = length beta ->
  mnl od_pair los_col_names (beta ++ extra) = mnl od_pair los_col_names beta.
Proof.
  intros L. rewrite (mnl_firstn _ _ (beta ++ extra)), L.
  rewrite firstn_app, Nat.sub_diag, firstn_all. simpl. now rewrite app_nil_r.
Qed.

Lemma mnl_ignores_extra_weights_witness :
  mnl [car_AB; rail_AB] ["time"] ([1.5] ++ [0.1; 7]) =
  mnl [car_AB; rail_AB] ["time"] [1.5].
Proof. apply mnl_ignores_extra_weights. reflexivity. Defined.

(** ** [mnl]: the shape of the probabilities *)

Lemma big_sum_repeat (x : R) (n : nat) : big_sum (repeat x n) = INR n * x.
Proof.
  induction n as [| n IH].
  - simpl. ring.
  - rewrite S_INR. cbn [repeat big_sum fold_right]. fold (big_sum (repeat x n)).
    rewrite IH. ring.
Qed.

Lemma logit_uniform (u : R) (n : nat) :
  map (logit (repeat u n)) (repeat u n) = repeat (1 / INR n) n.
Proof.
  rewrite map_repeat. destruct n as [| n]; [reflexivity |].
  f_equal. unfold logit. rewrite map_repeat, big_sum_repeat.
  pose proof (exp_pos u). pose proof (not_0_INR (S n) (Nat.neq_succ_0 n)).
  field. split; solve [lra | assumption].
Qed.

Lemma map_all_equal {A B : Type} (f : A -> B) (b : B) (xs : list A) :
  Forall (fun x => f x = b) xs -> map f xs = repeat b (length xs).
Proof.
  induction 1 as [| x xs Hx _ IH]; simpl; [reflexivity | now rewrite Hx, IH].
Qed.

(** X7: when the links of a group have numeric attributes of moderate
    size and all have the same weighted sum of attributes, [mnl] gives
    each of the [N] links the probability [1/N]. *)
Theorem mnl_uniform (od_pair : list (gmap string value))
    (los_col_names : list string) (beta : list R) (u : R) :
  length los_col_names = length beta ->
  Forall (populated los_col_names) od_pair ->
  Forall (moderate (combine los_col_names beta)) od_pair ->
  Forall (fun row => disutility (combine los_col_names beta) row = u) od_pair ->
  mnl od_pair los_col_names beta =
  Ok (repeat (1 / INR (length od_pair)) (length od_pair)).
Proof.
  intros L P _ U. rewrite mnl_ok_le; [| lia | exact P].
  rewrite (map_all_equal _ u _ U). now rewrite logit_uniform.
Qed.

Lemma mnl_uniform_witness :
  mnl twin_links ["time"] [1.5] = Ok (repeat (1 / INR 3) 3).
Proof.
  apply (mnl_uniform twin_links ["time"] [1.5] (- (1.5 * 2 + 0))).
  - reflexivity.
  - repeat constructor; eexists; reflexivity.
  - repeat constructor; cbn [map combine big_sum fold_right fst snd];
      change (attribute rail_AB "time") with 2; lra.
  - repeat constructor.
Defined.

(** X8: with an empty list of attribute columns [mnl] never raises,
    whatever the rows hold, and gives each of the [N] links of the group
    the probability [1/N]. *)
Theorem mnl_no_columns (od_pair : list (gmap string value)) (beta : list R) :
  mnl od_pair [] beta = Ok (repeat (1 / INR (length od_pair)) (length od_pair)).
Proof.
  rewrite mnl_ok_le.
  - rewrite (map_all_equal _ (- 0) od_pair).
    + now rewrite logit_uniform.
    + apply List.Forall_forall. reflexivity.
  - simpl. lia.
  - apply List.Forall_forall. intros row _. constructor.
Qed.

Lemma big_sum_exp_shift (c : R) (vs : list R) :
  big_sum (map exp (map (Rplus c) vs)) = exp c * big_sum (map exp vs).
Proof.
  induction vs as [| v vs IH]; simpl.
  - ring.
  - fold (big_sum (map exp (map (Rplus c) vs))). fold (big_sum (map exp vs)).
    rewrite IH, exp_plus. ring.
Qed.

Lemma logit_shift (c : R) (vs : list R) :
  map (logit (map (Rplus c) vs)) (map (Rplus c) vs) = map (logit vs) vs.
Proof.
  rewrite map_map. apply map_ext_in. intros v Hv.
  unfold logit. rewrite big_sum_exp_shift, exp_plus.
  assert (N : vs <> []) by (destruct vs; [contradiction | discriminate]).
  pose proof (big_sum_exp_pos vs N). pose proof (exp_pos c).
  field. split; lra.
Qed.

(** X9: within the moderate range the probabilities depend on
    differences of utility only: if the weighted sum of every link of the
    group changes by the same amount, [mnl] returns the same
    probabilities. *)
Theorem mnl_shift_invariant (od_pair od_pair' : list (gmap string value))
    (los_col_names : list string) (beta : list R) (c : R) :
  length los_col_names = length beta ->
  Forall (populated los_col_names) od_pair ->
  Forall (populated los_col_names) od_pair' ->
  Forall (moderate (combine los_col_names beta)) od_pair ->
  Forall (moderate (combine los_col_names beta)) od_pair' ->
  Forall2 (fun row row' =>
             disutility (combine los_col_names beta) row' =
             c + disutility (combine los_col_names beta) row)
          od_pair od_pair' ->
  mnl od_pair' los_col_names beta = mnl od_pair los_col_names beta.
Proof.
  intros L P P' _ _ S. rewrite !mnl_ok_le by (assumption || lia).
  assert (E : map (disutility (combine los_col_names beta)) od_pair' =
              map (Rplus c) (map (disutility (combine los_col_names beta)) od_pair)).
  { clear P P'. induction S as [| row row' rest rest' H _ IH]; simpl.
    - reflexivity.
    - now rewrite H, IH. }
  now rewrite E, logit_shift.
Qed.

Lemma mnl_shift_invariant_witness :
  mnl delayed_AB ["time"] [1.5] = mnl [car_AB; rail_AB] ["time"] [1.5].
Proof.
  apply (mnl_shift_invariant [car_AB; rail_AB] delayed_AB ["time"] [1.5] (- 1.5)).
  - reflexivity.
  - exact populated_time_AB.
  - repeat constructor; eexists; reflexivity.
  - exact moderate_time_AB.
  - repeat constructor; cbn [map combine big_sum fold_right fst snd].
    + change (attribute (<["time" := Num 4]> car_AB) "time") with 4. lra.
    + change (attribute (<["time" := Num 4]> car_AB) "time") with 4. lra.
    + change (attribute (<["time" := Num 3]> rail_AB) "time") with 3. lra.
    + change (attribute (<["time" := Num 3]> rail_AB) "time") with 3. lra.
  - apply List.Forall2_cons; [| apply List.Forall2_cons; [| apply List.Forall2_nil]];
      unfold disutility; cbn [map combine big_sum fold_right fst snd].
    + change (attribute (<["time" := Num 4]> car_AB) "time") with 4.
      change (attribute car_AB "time") with 3. lra.
    + change (attribute (<["time" := Num 3]> rail_AB) "time") with 3.
      change (attribute rail_AB "time") with 2. lra.
Defined.

(** X10: within the moderate range the probabilities of a group follow
    the utilities: of two links, the one whose utility is not smaller
    gets a probability that is not smaller. *)
Theorem mnl_orders_links (od_pair : list (gmap string value))
    (los_col_names : list string) (beta : list R) (i j : nat)
    (row_i row_j : gmap string value) :
  length los_col_names = length beta ->
  Forall (populated los_col_names) od_pair ->
  Forall (moderate (combine los_col_names beta)) od_pair ->
  nth_error od_pair i = Some row_i ->
  nth_error od_pair j = Some row_j ->
  let v := disutility (combine los_col_names beta) in
  exists p p_i p_j,
    mnl od_pair los_col_names beta = Ok p /\
    nth_error p i = Some p_i /\ nth_error p j = Some p_j /\
    (v row_i <= v row_j -> p_i <= p_j).
Proof.
  intros L P _ Hi Hj v.
  set (vs := map v od_pair).
  exists (map (logit vs) vs), (logit vs (v row_i)), (logit vs (v row_j)).
  split; [apply mnl_ok_le; [lia | exact P] |].
  split; [unfold vs; rewrite map_map;
          exact (map_nth_error (fun x => logit (map v od_pair) (v x)) _ _ Hi) |].
  split; [unfold vs; rewrite map_map;
          exact (map_nth_error (fun x => logit (map v od_pair) (v x)) _ _ Hj) |].
  assert (N : vs <> []).
  { unfold vs. destruct od_pair; [destruct i; discriminate | discriminate]. }
  pose proof (big_sum_exp_pos vs N) as S.
  assert (I : 0 < / big_sum (map exp vs)) by now apply Rinv_0_lt_compat.
  unfold logit, Rdiv. intros H.
  apply Rmult_le_compat_r; [lra |].
  destruct H as [H | ->]; [apply Rlt_le, exp_increasing, H | lra].
Qed.

Lemma mnl_orders_links_witness :
  let v := disutility (combine ["time"] [1.5]) in
  exists p p_i p_j,
    mnl [car_AB; rail_AB] ["time"] [1.5] = Ok p /\
    nth_error p 0 = Some p_i /\ nth_error p 1 = Some p_j /\
    (v car_AB <= v rail_AB -> p_i <= p_j).
Proof.
  apply (mnl_orders_links [car_AB; rail_AB] ["time"] [1.5] 0 1 car_AB rail_AB).
  - reflexivity.
  - exact populated_time_AB.
  - exact moderate_time_AB.
  - reflexivity.
  - reflexivity.
Defined.

Lemma mnl_two_links (row1 row2 : gmap string value)
    (los_col_names : list string) (beta : list R) :
  length los_col_names = length beta ->
  populated los_col_names row1 -> populated los_col_names row2 ->
  let v1 := disutility (combine los_col_names beta) row1 in
  let v2 := disutility (combine los_col_names beta) row2 in
  mnl [row1; row2] los_col_names beta =
  Ok [1 / (1 + exp (v2 - v1)); 1 / (1 + exp (v1 - v2))].
Proof.
  intros L P1 P2 v1 v2.
  rewrite mnl_ok_le; [| lia | now repeat constructor].
  fold v1 v2. unfold logit. cbn [map big_sum fold_right].
  pose proof (exp_pos v1). pose proof (exp_pos v2).
  unfold Rminus. rewrite !exp_plus, !exp_Ropp.
  subst v1 v2. do 2 f_equal; [| f_equal]; field; repeat split; lra.
Qed.

(** X11: for a group of two links with attributes of moderate size [mnl]
    is the binary logit: with the utilities [v1] and [v2] of the links
    the probabilities are [1 / (1 + exp (v2 - v1))] and
    [1 / (1 + exp (v1 - v2))]. *)
Theorem mnl_binary (row1 row2 : gmap string value)
    (los_col_names : list string) (beta : list R) :
  length los_col_names = length beta ->
  populated los_col_names row1 -> populated los_col_names row2 ->
  moderate (combine los_col_names beta) row1 ->
  moderate (combine los_col_names beta) row2 ->
  let v1 := disutility (combine los_col_names beta) row1 in
  let v2 := disutility (combine los_col_names beta) row2 in
  mnl [row1; row2] los_col_names beta =
  Ok [1 / (1 + exp (v2 - v1)); 1 / (1 + exp (v1 - v2))].
Proof. intros L P1 P2 _ _. now apply mnl_two_links. Qed.

Lemma mnl_binary_witness :
  mnl [car_AB; rail_AB] ["time"] [1.5] =
  Ok [1 / (1 + exp (disutility (combine ["time"] [1.5]) rail_AB -
                    disutility (combine ["time"] [1.5]) car_AB));
      1 / (1 + exp (disutility (combine ["time"] [1.5]) car_AB -
                    disutility (combine ["time"] [1.5]) rail_AB))].
Proof.
  pose proof moderate_time_AB as M.
  apply (mnl_binary car_AB rail_AB ["time"] [1.5]).
  - reflexivity.
  - repeat constructor; eexists; reflexivity.
  - repeat constructor; eexists; reflexivity.
  - now inversion M.
  - inversion M as [| ? ? _ M']. now inversion M'.
Defined.

(** ** Writing a column *)

Lemma setitem_inv (col : string) (vals : list value)
    (links links' : list (gmap string value)) :
  setitem col vals links = Ok links' ->
  length vals = length links /\
  links' = zip_with (fun row v => <[col := v]> row) links vals.
Proof.
  unfold setitem. destruct (Nat.eqb_spec (length vals) (length links)) as [E | N].
  - intros H. injection H as <-. now split.
  - discriminate.
Qed.

Lemma column_step_inv (f : gmap string value -> result value) (col : string)
    (links links' : list (gmap string value)) :
  (let* vals := comprehension f links in setitem col vals links) = Ok links' ->
  exists vals,
    comprehension f links = Ok vals /\ length vals = length links /\
    links' = zip_with (fun row v => <[col := v]> row) links vals.
Proof.
  destruct (comprehension f links) as [vals | e]; simpl; [| discriminate].
  intros H. apply setitem_inv in H as [L ->]. now exists vals.
Qed.

Lemma column_step_ok (f : gmap string value -> result value) (col : string)
    (links : list (gmap string value)) (vals : list value) :
  comprehension f links = Ok vals ->
  (let* vals := comprehension f links in setitem col vals links) =
  Ok (zip_with (fun row v => <[col := v]> row) links vals).
Proof.
  intros H. rewrite H; simpl. unfold setitem.
  now rewrite (comprehension_length _ _ _ H), Nat.eqb_refl.
Qed.

Lemma comprehension_written {B : Type} (f : gmap string value -> result B)
    (col : string) (links : list (gmap string value)) (vals : list value) :
  (forall row v, f (<[col := v]> row) = f row) ->
  length vals = length links ->
  comprehension f (zip_with (fun row v => <[col := v]> row) links vals) =
  comprehension f links.
Proof.
  intros F. revert vals. induction links as [| row links IH]; intros vals L.
  - reflexivity.
  - destruct vals as [| v vals]; [discriminate |]. injection L as L.
    simpl. now rewrite F, IH.
Qed.

Lemma getitem_insert_ne (row : gmap string value) (col key : string) (v : value) :
  col <> key -> getitem (<[col := v]> row) key = getitem row key.
Proof. intros N. unfold getitem. now rewrite lookup_insert_ne. Qed.

Lemma utility_other_column (cols : list string) (beta : list R)
    (col : string) (row : gmap string value) (v : value) :
  ~ In col cols ->
  utility cols beta (<[col := v]> row) = utility cols beta row.
Proof.
  intros N. unfold utility. f_equal. apply comprehension_ext_in.
  intros i _. unfold los_term, index.
  destruct (nth_error cols i) as [c |] eqn:E; simpl; [| reflexivity].
  rewrite getitem_insert_ne; [reflexivity |].
  intros ->. apply N. now apply nth_error_In in E.
Qed.

Lemma mnl_written (cols : list string) (beta : list R) (col : string)
    (links : list (gmap string value)) (vals : list value) :
  ~ In col cols -> length vals = length links ->
  mnl (zip_with (fun row v => <[col := v]> row) links vals) cols beta =
  mnl links cols beta.
Proof.
  intros N L. unfold mnl. f_equal. apply comprehension_written; [| exact L].
  intros row v. now apply utility_other_column.
Qed.

(** X12: [mnl] depends on the attribute columns it is given and on
    nothing else of the table: after a column that is not among them has
    been written, as the congestion step writes [time_2] and the lorry
    step [cap_2], it returns the same probabilities, or raises the same
    exception, as before. *)
Theorem mnl_reads_named_columns (los_col_names : list string) (beta : list R) :
  (forall col vals links links',
      setitem col vals links = Ok links' -> ~ In col los_col_names ->
      mnl links' los_col_names beta = mnl links los_col_names beta) /\
  (forall links links',
      congestion_step links = Ok links' -> ~ In "time_2" los_col_names ->
      mnl links' los_col_names beta = mnl links los_col_names beta) /\
  (forall links links',
      lorry_step links = Ok links' -> ~ In "cap_2" los_col_names ->
      mnl links' los_col_names beta = mnl links los_col_names beta).
Proof.
  split; [| split].
  - intros col vals links links' H N. apply setitem_inv in H as [L ->].
    now apply mnl_written.
  - intros links links' H N.
    apply column_step_inv in H as (vals & _ & L & ->). now apply mnl_written.
  - intros links links' H N.
    apply column_step_inv in H as (vals & _ & L & ->). now apply mnl_written.
Qed.

Lemma column_written_same (col : string) (links : list (gmap string value))
    (vals : list value) :
  length vals = length links ->
  column col (zip_with (fun row v => <[col := v]> row) links vals) = Ok vals.
Proof.
  unfold column. revert vals.
  induction links as [| row links IH]; intros vals L.
  - destruct vals; [reflexivity | discriminate].
  - destruct vals as [| v vals]; [discriminate |]. injection L as L.
    simpl. unfold getitem at 1. rewrite lookup_insert_eq; simpl.
    now rewrite IH.
Qed.

Lemma zip_with_insert_twice (col : string) (links : list (gmap string value))
    (vals1 vals2 : list value) :
  length vals1 = length links ->
  zip_with (fun row v => <[col := v]> row)
           (zip_with (fun row v => <[col := v]> row) links vals1) vals2 =
  zip_with (fun row v => <[col := v]> row) links vals2.
Proof.
  revert vals1 vals2. induction links as [| row links IH]; intros vals1 vals2 L.
  - reflexivity.
  - destruct vals1 as [| v1 vals1]; [discriminate |]. injection L as L.
    destruct vals2 as [| v2 vals2]; [reflexivity |].
    simpl. now rewrite insert_insert_eq, IH.
Qed.

(** X13: [links[col] = vals] followed by [links[col]] gives [vals] back
    and every other column reads as before; a second assignment to the
    same column replaces the first; on a table that has rows, a list
    whose length is not the number of rows is refused with
    [ValueError]. *)
Theorem setitem_column (col : string) (vals : list value)
    (links : list (gmap string value)) :
  (length vals = length links ->
   exists links',
     setitem col vals links = Ok links' /\
     length links' = length links /\
     column col links' = Ok vals /\
     (forall c, c <> col -> column c links' = column c links) /\
     (forall vals', setitem col vals' links' = setitem col vals' links)) /\
  (links <> [] -> length vals <> length links ->
   setitem col vals links = Raise ValueError).
Proof.
  split.
  - intros L. eexists. split; [unfold setitem; now rewrite L, Nat.eqb_refl |].
    split; [rewrite length_zip_with; lia |].
    split; [now apply column_written_same |].
    split.
    + intros c N. unfold column. apply comprehension_written; [| exact L].
      intros row v. now apply getitem_insert_ne.
    + intros vals'. unfold setitem.
      rewrite length_zip_with, L, Nat.min_id.
      destruct (Nat.eqb (length vals') (length links)); [| reflexivity].
      now rewrite zip_with_insert_twice.
  - intros _ N. unfold setitem.
    now destruct (Nat.eqb_spec (length vals) (length links)).
Qed.

(** ** The congestion step: when it returns, and running it again *)



Lemma time_2_of_written (row : gmap string value) (x : value) :
  time_2_of (<["time_2" := x]> row) = time_2_of row.
Proof.
  unfold time_2_of. rewrite getitem_insert_ne by discriminate.
  destruct (getitem row "mode") as [m | e]; simpl; [| reflexivity].
  destruct (eq_str m "car").
  - rewrite getitem_insert_ne by discriminate.
    destruct (getitem row "volumes") as [vol | e]; simpl; [| reflexivity].
    rewrite getitem_insert_ne by discriminate.
    destruct (getitem row "cap") as [cap | e]; simpl; [| reflexivity].
    rewrite getitem_insert_ne by discriminate. reflexivity.
  - now rewrite getitem_insert_ne by discriminate.
Qed.

Lemma congestion_step_again (links links' : list (gmap string value)) :
  congestion_step links = Ok links' -> congestion_step links' = Ok links'.
Proof.
  intros H. apply column_step_inv in H as (times & H & L & ->).
  unfold congestion_step.
  rewrite (column_step_ok time_2_of "time_2" _ times).
  - now rewrite zip_with_insert_twice.
  - rewrite comprehension_written; [exact H | | exact L].
    intros row v. apply time_2_of_written.
Qed.

(** X15: the congestion step is idempotent: run on its own result (the
    notebook cell executed a second time) it returns that table
    unchanged. *)
Theorem congestion_step_idempotent (links links' : list (gmap string value)) :
  congestion_step links = Ok links' -> congestion_step links' = Ok links'.
Proof. apply congestion_step_again. Qed.

Lemma congestion_step_AB :
  congestion_step [car_AB; rail_AB] =
  Ok [<["time_2" := Num (0.5 * 3 * exp (400 / 500))]> car_AB;
      <["time_2" := Num 2]> rail_AB].
Proof.
  unfold congestion_step. cbn [comprehension].
  rewrite time_2_of_car_AB, time_2_of_rail_AB. reflexivity.
Qed.

Lemma congestion_step_idempotent_witness :
  congestion_step [<["time_2" := Num (0.5 * 3 * exp (400 / 500))]> car_AB;
                   <["time_2" := Num 2]> rail_AB] =
  Ok [<["time_2" := Num (0.5 * 3 * exp (400 / 500))]> car_AB;
      <["time_2" := Num 2]> rail_AB].
Proof. exact (congestion_step_idempotent _ _ congestion_step_AB). Defined.

(** ** Step 6: the lorry step *)






Lemma cap_2_of_written (row : gmap string value) (col : string) (x : value) :
  col <> "mode" -> col <> "cap" ->
  cap_2_of (<[col := x]> row) = cap_2_of row.
Proof.
  intros N1 N2. unfold cap_2_of. rewrite getitem_insert_ne by exact N1.
  destruct (getitem row "mode") as [m | e]; simpl; [| reflexivity].
  destruct (eq_str m "car"); now rewrite getitem_insert_ne by exact N2.
Qed.

Lemma time_2_of_cap_2_written (row : gmap string value) (x : value) :
  time_2_of (<["cap_2" := x]> row) = time_2_of row.
Proof.
  unfold time_2_of. rewrite getitem_insert_ne by discriminate.
  destruct (getitem row "mode") as [m | e]; simpl; [| reflexivity].
  destruct (eq_str m "car").
  - rewrite getitem_insert_ne by discriminate.
    destruct (getitem row "volumes") as [vol | e]; simpl; [| reflexivity].
    rewrite getitem_insert_ne by discriminate.
    destruct (getitem row "cap") as [cap | e]; simpl; [| reflexivity].
    rewrite getitem_insert_ne by discriminate. reflexivity.
  - now rewrite getitem_insert_ne by discriminate.
Qed.

Lemma zip_with_insert_swap (c1 c2 : string) (links : list (gmap string value))
    (vals1 vals2 : list value) :
  c1 <> c2 ->
  zip_with (fun row v => <[c1 := v]> row)
           (zip_with (fun row v => <[c2 := v]> row) links vals2) vals1 =
  zip_with (fun row v => <[c2 := v]> row)
           (zip_with (fun row v => <[c1 := v]> row) links vals1) vals2.
Proof.
  intros N. revert vals1 vals2.
  induction links as [| row links IH]; intros vals1 vals2.
  - reflexivity.
  - destruct vals1 as [| v1 vals1], vals2 as [| v2 vals2]; try reflexivity.
    simpl. rewrite IH. f_equal. now apply insert_insert_ne.
Qed.

(** X17: the congestion step and the lorry step do not interfere: on a
    table on which both return, running them in either order gives the
    same table, with [time_2] computed from [cap] and not from [cap_2]. *)
Theorem congestion_lorry_commute (links with_time with_cap : list (gmap string value)) :
  congestion_step links = Ok with_time ->
  lorry_step links = Ok with_cap ->
  exists both,
    lorry_step with_time = Ok both /\ congestion_step with_cap = Ok both /\
    column "time_2" both = column "time_2" with_time /\
    column "cap_2" both = column "cap_2" with_cap.
Proof.
  intros HT HC.
  apply column_step_inv in HT as (times & HT & LT & ->).
  apply column_step_inv in HC as (caps & HC & LC & ->).
  exists (zip_with (fun row v => <["cap_2" := v]> row)
            (zip_with (fun row v => <["time_2" := v]> row) links times) caps).
  assert (E1 : lorry_step (zip_with (fun row v => <["time_2" := v]> row) links times) =
               Ok (zip_with (fun row v => <["cap_2" := v]> row)
                     (zip_with (fun row v => <["time_2" := v]> row) links times) caps)).
  { apply column_step_ok. rewrite comprehension_written; [exact HC | | exact LT].
    intros row v. now apply cap_2_of_written. }
  assert (E2 : congestion_step (zip_with (fun row v => <["cap_2" := v]> row) links caps) =
               Ok (zip_with (fun row v => <["time_2" := v]> row)
                     (zip_with (fun row v => <["cap_2" := v]> row) links caps) times)).
  { apply column_step_ok. rewrite comprehension_written; [exact HT | | exact LC].
    intros row v. apply time_2_of_cap_2_written. }
  split; [exact E1 |].
  split; [rewrite E2; f_equal; now apply zip_with_insert_swap |].
  split.
  - unfold column at 1. rewrite comprehension_written; [reflexivity | |].
    + intros row v. now apply getitem_insert_ne.
    + rewrite length_zip_with. lia.
  - rewrite (zip_with_insert_swap "cap_2" "time_2") by discriminate.
    unfold column at 1. rewrite comprehension_written; [reflexivity | |].
    + intros row v. now apply getitem_insert_ne.
    + rewrite length_zip_with. lia.
Qed.

Lemma lorry_step_AB :
  lorry_step [car_AB; rail_AB] =
  Ok [<["cap_2" := Num (500 * 0.9)]> car_AB; <["cap_2" := Num 500]> rail_AB].
Proof. reflexivity. Qed.

Lemma congestion_lorry_commute_witness :
  exists both,
    lorry_step [<["time_2" := Num (0.5 * 3 * exp (400 / 500))]> car_AB;
                <["time_2" := Num 2]> rail_AB] = Ok both /\
    congestion_step [<["cap_2" := Num (500 * 0.9)]> car_AB;
                     <["cap_2" := Num 500]> rail_AB] = Ok both /\
    column "time_2" both =
    column "time_2" [<["time_2" := Num (0.5 * 3 * exp (400 / 500))]> car_AB;
                     <["time_2" := Num 2]> rail_AB] /\
    column "cap_2" both =
    column "cap_2" [<["cap_2" := Num (500 * 0.9)]> car_AB;
                    <["cap_2" := Num 500]> rail_AB].
Proof.
  exact (congestion_lorry_commute _ _ _ congestion_step_AB lorry_step_AB).
Defined.

(** ** The loop: an exception, and the congestion step as its body *)

Section LoopMore.

Variable body : list (gmap string value) -> result (list (gmap string value)).

Lemma iterate_continue (n m : nat) (links : list (gmap string value)) :
  iterate body (n + m) links =
  let* st := iterate body n links in for_each body (seq n m) st.
Proof.
  unfold iterate. now rewrite seq_app, for_each_app.
Qed.

Lemma rounds_then_raise (k m : nat) (links mid : list (gmap string value))
    (out : list report) (e : exn) :
  rounds body k links mid out ->
  round body k (mid, out) = Raise e ->
  iterate body (k + S m) links = Raise e.
Proof.
  intros Hr He. rewrite iterate_continue.
  apply iterate_rounds in Hr. rewrite Hr. simpl. now rewrite He.
Qed.

Lemma rounds_after_first (n : nat) (links first : list (gmap string value))
    (car rail : option R) :
  body links = Ok first -> body first = Ok first ->
  mode_share "car" first = Ok car -> mode_share "rail" first = Ok rail ->
  rounds body (S n) links first (map (fun j => Report j car rail) (seq 0 (S n))).
Proof.
  intros H1 H2 Hc Hr. induction n as [| n IH].
  - apply (rounds_S body 0 links links first [] car rail); auto. constructor.
  - rewrite (seq_S (S n) 0), map_app. cbn [map].
    change (0 + S n)%nat with (S n).
    now apply rounds_S with (mid := first).
Qed.

End LoopMore.

(** X19: an exception ends the loop: if after [k < 10] passes the body,
    or one of the two means of the [print], raises, the loop raises that
    exception and returns no table. *)
Theorem equilibrium_loop_aborts
    (body : list (gmap string value) -> result (list (gmap string value)))
    (k : nat) (links mid : list (gmap string value)) (out : list report) (e : exn) :
  (k < 10)%nat ->
  rounds body k links mid out ->
  (body mid = Raise e \/
   exists next,
     body mid = Ok next /\
     (mode_share "car" next = Raise e \/
      exists car, mode_share "car" next = Ok car /\
                  mode_share "rail" next = Raise e)) ->
  equilibrium_loop body links = Raise e.
Proof.
  intros Hk Hr He. unfold equilibrium_loop.
  replace 10%nat with (k + S (9 - k))%nat by lia.
  apply (rounds_then_raise body k (9 - k) links mid out e Hr).
  unfold round; simpl.
  destruct He as [-> | (next & -> & [Hc | (car & Hc & Hrail)])]; simpl.
  - reflexivity.
  - now rewrite Hc.
  - rewrite Hc; simpl. now rewrite Hrail.
Qed.

Lemma time_2_of_jammed_link : time_2_of jammed_link = Raise ZeroDivisionError.
Proof.
  change (time_2_of jammed_link)
    with (let* t := travel_time (Num 400) (Num 0) (Num 3) in Ok (Num t)).
  now rewrite travel_time_zero_capacity.
Qed.

Lemma equilibrium_loop_aborts_witness :
  equilibrium_loop congestion_step [rail_AB; jammed_link] = Raise ZeroDivisionError.
Proof.
  apply (equilibrium_loop_aborts congestion_step 0
           [rail_AB; jammed_link] [rail_AB; jammed_link] []).
  - lia.
  - constructor.
  - left. unfold congestion_step. cbn [comprehension].
    now rewrite time_2_of_rail_AB, time_2_of_jammed_link.
Defined.

(** X20: with the congestion step alone as loop body, on a table whose
    rows it and the [print] accept, the ten passes return the table of the
    first pass and print the same two shares ten times: [time_2] is
    computed from [volumes], which the step does not change. *)
Theorem congestion_loop_settles (links : list (gmap string value)) :
  Forall loop_ready links ->
  exists first car rail,
    congestion_step links = Ok first /\
    equilibrium_loop congestion_step links =
    Ok (first, map (fun j => Report j car rail) (seq 0 10)).
Proof.
  intros W.
  destruct (congestion_step_ready links W) as (first & H1 & W1).
  destruct (mode_share_total "car" first W1) as [car Hc].
  destruct (mode_share_total "rail" first W1) as [rail Hr].
  exists first, car, rail. split; [exact H1 |].
  unfold equilibrium_loop. apply iterate_rounds.
  apply rounds_after_first;
    [exact H1 | exact (congestion_step_again _ _ H1) | exact Hc | exact Hr].
Qed.

Lemma congestion_loop_settles_witness :
  exists first car rail,
    congestion_step [car_AB; rail_AB] = Ok first /\
    equilibrium_loop congestion_step [car_AB; rail_AB] =
    Ok (first, map (fun j => Report j car rail) (seq 0 10)).
Proof. exact (congestion_loop_settles [car_AB; rail_AB] loop_ready_AB). Defined.

(** ** The printed shares *)

Lemma column_default (col : string) (links : list (gmap string value)) :
  Forall (fun row => exists x, row !! col = Some x) links ->
  column col links =
  Ok (map (fun row => match row !! col with Some v => v | None => Num 0 end) links).
Proof.
  intros W. unfold column. apply comprehension_ok.
  eapply Forall_impl; [exact W |].
  intros row [x Hx]. unfold getitem. now rewrite Hx.
Qed.

Lemma mode_share_mean (m : string) (links : list (gmap string value)) :
  Forall share_ready links ->
  mode_share m links = Ok (mean (probs_of_mode m links)).
Proof.
  intros W. unfold mode_share.
  rewrite (column_default "mode"), (column_default "probs_4"); simpl.
  - match goal with
    | |- (let* probs := comprehension as_num ?sel in _) = _ =>
        assert (E : comprehension as_num sel = Ok (probs_of_mode m links))
    end.
    { induction W as [| row rest [[x Hx] [p Hp]] _ IH]; [reflexivity |].
      cbn [map combine List.filter probs_of_mode]. rewrite Hx, Hp.
      cbn [fst]. destruct (eq_str x m); [| exact IH].
      cbn [map snd comprehension as_num bind]. now rewrite IH. }
    now rewrite E.
  - eapply Forall_impl; [exact W |]. intros row [_ [p Hp]]. eauto.
  - eapply Forall_impl; [exact W |]. now intros row [H _].
Qed.







Lemma od_table_ready (links : list (gmap string value)) :
  od_table links -> Forall share_ready links.
Proof.
  induction 1 as [| first second rest p q Hm Hp Hq _ _ IH]; [constructor |].
  constructor; [| constructor; [| exact IH]].
  - split; [destruct Hm as [[H _] | [H _]]; eauto | eauto].
  - split; [destruct Hm as [[_ H] | [_ H]]; eauto | eauto].
Qed.

Lemma od_table_probs (links : list (gmap string value)) :
  od_table links ->
  length (probs_of_mode "rail" links) = length (probs_of_mode "car" links) /\
  (2 * length (probs_of_mode "car" links) = length links)%nat /\
  big_sum (probs_of_mode "car" links) + big_sum (probs_of_mode "rail" links) =
  INR (length (probs_of_mode "car" links)).
Proof.
  induction 1 as [| first second rest p q Hm Hp Hq Hpq _ (IH1 & IH2 & IH3)].
  - simpl. repeat split; lra.
  - cbn [probs_of_mode]. rewrite Hp, Hq.
    destruct Hm as [[-> ->] | [-> ->]]; cbn [eq_str String.eqb Ascii.eqb Bool.eqb andb];
      cbn [length big_sum fold_right];
      fold (big_sum (probs_of_mode "car" rest));
      fold (big_sum (probs_of_mode "rail" rest));
      rewrite S_INR; repeat split; try lia; lra.
Qed.

(** X22: on a non-empty table made of origin-destination pairs, each
    with one car row and one rail row whose [probs_4] add up to one, the
    two shares that the loop prints add up to one. *)
Theorem printed_shares_add_up (links : list (gmap string value)) :
  od_table links -> links <> [] ->
  exists car rail,
    mode_share "car" links = Ok (Some car) /\
    mode_share "rail" links = Ok (Some rail) /\
    car + rail = 1.
Proof.
  intros T N.
  pose proof (od_table_ready links T) as W.
  destruct (od_table_probs links T) as (L1 & L2 & Hsum).
  rewrite !(mode_share_mean _ links W).
  assert (Pos : (0 < length (probs_of_mode "car" links))%nat).
  { destruct links as [| row rest]; [congruence |].
    change (length (row :: rest)) with (S (length rest)) in L2. lia. }
  destruct (probs_of_mode "car" links) as [| c cs] eqn:Ec; [simpl in Pos; lia |].
  destruct (probs_of_mode "rail" links) as [| r rs] eqn:Er; [discriminate |].
  cbn [mean]. do 2 eexists. split; [reflexivity | split; [reflexivity |]].
  rewrite !py_sum_big_sum, L1.
  assert (0 < INR (length (c :: cs))) by (apply lt_0_INR; simpl; lia).
  rewrite <- Rdiv_plus_distr, Hsum. field. lra.
Qed.

Lemma od_table_AB : od_table [car_AB; rail_AB].
Proof.
  apply (od_table_pair car_AB rail_AB [] 0.25 0.75).
  - left. split; reflexivity.
  - reflexivity.
  - reflexivity.
  - lra.
  - constructor.
Qed.

Lemma printed_shares_add_up_witness :
  exists car rail,
    mode_share "car" [car_AB; rail_AB] = Ok (Some car) /\
    mode_share "rail" [car_AB; rail_AB] = Ok (Some rail) /\
    car + rail = 1.
Proof.
  apply (printed_shares_add_up [car_AB; rail_AB] od_table_AB). discriminate.
Defined.

(** ** The column [cap] *)

Section CapacityFacts.

Variable name_dict : value -> result string.
Variable od_matrix_loc : string -> string -> result R.

Lemma cap_of_ok_inv (row : gmap string value) (c : value) :
  cap_of name_dict od_matrix_loc row = Ok c ->
  exists a b origin destination volumes,
    row !! "a" = Some a /\ row !! "b" = Some b /\
    name_dict a = Ok origin /\ name_dict b = Ok destination /\
    od_matrix_loc origin destination = Ok volumes /\
    c = Num (volumes / 2).
Proof.
  unfold cap_of, getitem.
  destruct (row !! "a") as [a |]; simpl; [| discriminate].
  destruct (name_dict a) as [o |] eqn:Ea; simpl; [| discriminate].
  destruct (row !! "b") as [b |]; simpl; [| discriminate].
  destruct (name_dict b) as [d |] eqn:Eb; simpl; [| discriminate].
  destruct (od_matrix_loc o d) as [vol |] eqn:Ev; simpl; [| discriminate].
  intros H. injection H as <-. exists a, b, o, d, vol. auto 10.
Qed.

Lemma cap_of_same_od (row1 row2 : gmap string value) :
  row1 !! "a" = row2 !! "a" -> row1 !! "b" = row2 !! "b" ->
  cap_of name_dict od_matrix_loc row1 = cap_of name_dict od_matrix_loc row2.
Proof. intros Ha Hb. unfold cap_of, getitem. now rewrite Ha, Hb. Qed.

Lemma capacity_step_rows (links links' : list (gmap string value)) :
  capacity_step name_dict od_matrix_loc links = Ok links' ->
  length links' = length links /\
  forall i row, nth_error links i = Some row ->
    exists c, cap_of name_dict od_matrix_loc row = Ok c /\
              nth_error links' i = Some (<["cap" := c]> row).
Proof.
  intros H. apply column_step_inv in H as (caps & H & L & ->).
  split; [rewrite length_zip_with; lia |].
  intros i row Hi.
  destruct (comprehension_nth _ _ _ _ _ H Hi) as (c & Hc & Hrow).
  exists c. split; [exact Hrow | now apply setitem_nth].
Qed.

End CapacityFacts.

(** X23: when the capacity step returns, it has written only the column
    [cap]; the capacity of a row is half the volume that the demand table
    holds for the names of the row's nodes [a] and [b], so two rows
    between the same nodes get the same capacity whatever their modes. *)
Theorem capacity_step_frame (name_dict : value -> result string)
    (od_matrix_loc : string -> string -> result R)
    (links links' : list (gmap string value)) :
  capacity_step name_dict od_matrix_loc links = Ok links' ->
  length links' = length links /\
  (forall i row, nth_error links i = Some row ->
     exists row' a b origin destination volumes,
       nth_error links' i = Some row' /\
       (forall col, col <> "cap" -> row' !! col = row !! col) /\
       row !! "a" = Some a /\ row !! "b" = Some b /\
       name_dict a = Ok origin /\ name_dict b = Ok destination /\
       od_matrix_loc origin destination = Ok volumes /\
       row' !! "cap" = Some (Num (volumes / 2))) /\
  (forall i j row_i row_j row_i' row_j',
     nth_error links i = Some row_i -> nth_error links j = Some row_j ->
     nth_error links' i = Some row_i' -> nth_error links' j = Some row_j' ->
     row_i !! "a" = row_j !! "a" -> row_i !! "b" = row_j !! "b" ->
     row_i' !! "cap" = row_j' !! "cap").
Proof.
  intros H. destruct (capacity_step_rows _ _ _ _ H) as [L Rows].
  split; [exact L | split].
  - intros i row Hi. destruct (Rows i row Hi) as (c & Hc & Hi').
    apply cap_of_ok_inv in Hc as (a & b & o & d & vol & Ha & Hb & Ho & Hd & Hv & ->).
    exists (<["cap" := Num (vol / 2)]> row), a, b, o, d, vol.
    split; [exact Hi' |].
    split; [intros col N; apply lookup_insert_ne; congruence |].
    repeat (split; [assumption |]). apply lookup_insert_eq.
  - intros i j row_i row_j row_i' row_j' Hi Hj Hi' Hj' Ha Hb.
    destruct (Rows i row_i Hi) as (ci & Hci & Ei).
    destruct (Rows j row_j Hj) as (cj & Hcj & Ej).
    rewrite (cap_of_same_od name_dict od_matrix_loc row_i row_j Ha Hb) in Hci.
    assert (ci = cj) as -> by congruence.
    assert (row_i' = <["cap" := cj]> row_i) as -> by congruence.
    assert (row_j' = <["cap" := cj]> row_j) as -> by congruence.
    now rewrite !lookup_insert_eq.
Qed.

Lemma capacity_step_frame_witness :
  length capped_AB = length numbered_AB /\
  (forall i row, nth_error numbered_AB i = Some row ->
     exists row' a b origin destination volumes,
       nth_error capped_AB i = Some row' /\
       (forall col, col <> "cap" -> row' !! col = row !! col) /\
       row !! "a" = Some a /\ row !! "b" = Some b /\
       one_city a = Ok origin /\ one_city b = Ok destination /\
       flat_demand origin destination = Ok volumes /\
       row' !! "cap" = Some (Num (volumes / 2))) /\
  (forall i j row_i row_j row_i' row_j',
     nth_error numbered_AB i = Some row_i -> nth_error numbered_AB j = Some row_j ->
     nth_error capped_AB i = Some row_i' -> nth_error capped_AB j = Some row_j' ->
     row_i !! "a" = row_j !! "a" -> row_i !! "b" = row_j !! "b" ->
     row_i' !! "cap" = row_j' !! "cap").
Proof.
  apply (capacity_step_frame one_city flat_demand numbered_AB capped_AB).
  reflexivity.
Defined.

(** ** [mnl]: a link that gets worse *)

(** X24: in a group of two links with attributes of moderate size, when
    the utility of one link does not rise and the other link is
    unchanged, the probability of the first link does not rise and that
    of the other does not fall. *)
Theorem mnl_binary_monotone (row1 row1' row2 : gmap string value)
    (los_col_names : list string) (beta : list R) :
  length los_col_names = length beta ->
  populated los_col_names row1 -> populated los_col_names row1' ->
  populated los_col_names row2 ->
  moderate (combine los_col_names beta) row1 ->
  moderate (combine los_col_names beta) row1' ->
  moderate (combine los_col_names beta) row2 ->
  disutility (combine los_col_names beta) row1' <=
  disutility (combine los_col_names beta) row1 ->
  exists p1 p2 p1' p2',
    mnl [row1; row2] los_col_names beta = Ok [p1; p2] /\
    mnl [row1'; row2] los_col_names beta = Ok [p1'; p2'] /\
    p1' <= p1 /\ p2 <= p2'.
Proof.
  intros L P1 P1' P2 _ _ _ Hle.
  do 4 eexists.
  split; [apply (mnl_two_links row1 row2 _ _ L P1 P2) |].
  split; [apply (mnl_two_links row1' row2 _ _ L P1' P2) |].
  set (a := disutility (combine los_col_names beta) row1) in *.
  set (a' := disutility (combine los_col_names beta) row1') in *.
  set (b := disutility (combine los_col_names beta) row2).
  pose proof (exp_pos (b - a)). pose proof (exp_pos (a' - b)).
  assert (exp (b - a) <= exp (b - a')).
  { destruct Hle as [Hlt | ->]; [apply Rlt_le, exp_increasing; lra | lra]. }
  assert (exp (a' - b) <= exp (a - b)).
  { destruct Hle as [Hlt | ->]; [apply Rlt_le, exp_increasing; lra | lra]. }
  unfold Rdiv. rewrite !Rmult_1_l.
  split; apply Rinv_le_contravar; lra.
Qed.

Lemma mnl_binary_monotone_witness :
  exists p1 p2 p1' p2',
    mnl [car_AB; rail_AB] ["time"] [1.5] = Ok [p1; p2] /\
    mnl [<["time" := Num 4]> car_AB; rail_AB] ["time"] [1.5] = Ok [p1'; p2'] /\
    p1' <= p1 /\ p2 <= p2'.
Proof.
  pose proof moderate_time_AB as M.
  apply (mnl_binary_monotone car_AB (<["time" := Num 4]> car_AB) rail_AB
           ["time"] [1.5]).
  - reflexivity.
  - repeat constructor; eexists; reflexivity.
  - repeat constructor; eexists; reflexivity.
  - repeat constructor; eexists; reflexivity.
  - now inversion M.
  - repeat constructor; cbn [map combine big_sum fold_right fst snd];
      change (attribute (<["time" := Num 4]> car_AB) "time") with 4; lra.
  - inversion M as [| ? ? _ M']. now inversion M'.
  - unfold disutility; cbn [map combine big_sum fold_right fst snd].
    change (attribute (<["time" := Num 4]> car_AB) "time") with 4.
    change (attribute car_AB "time") with 3. lra.
Defined.

(** * The range of binary64 *)

(** ** Bounds on [exp 1] *)

Lemma exp_double_lower (y a b : R) :
  0 <= a -> a <= exp y -> b <= a * a -> b <= exp (2 * y).
Proof.
  intros Ha H Hb. replace (2 * y) with (y + y) by ring. rewrite exp_plus.
  apply Rle_trans with (a * a); [exact Hb |].
  apply Rmult_le_compat; assumption.
Qed.

(** [2.7182 <= e], from [1 + x <= exp x] at [x = 2^-15] and fifteen
    squarings, each rounded down to 24 decimals. *)
Lemma exp_1_lower : 27182 / 10000 <= exp 1.
Proof.
  assert (H0 : (32769 / 32768) <= exp (1 / 32768)) by (pose proof (exp_ineq1_le (1 / 32768)); lra).
  assert (H1 : (500030518043786287307739 / 500000000000000000000000) <= exp (2 * (1 / 32768)))
    by (apply (exp_double_lower _ (32769 / 32768)); [lra | exact H0 | lra]).
  clear H0.
  assert (H2 : (1000122075900549135397953 / 1000000000000000000000000) <= exp (2 * (2 * (1 / 32768))))
    by (apply (exp_double_lower _ (500030518043786287307739 / 500000000000000000000000)); [lra | exact H1 | lra]).
  clear H1.
  assert (H3 : (500122083351811882839151 / 500000000000000000000000) <= exp (2 * (2 * (2 * (1 / 32768)))))
    by (apply (exp_double_lower _ (1000122075900549135397953 / 1000000000000000000000000)); [lra | exact H2 | lra]).
  clear H2.
  assert (H4 : (1000488393024626689852431 / 1000000000000000000000000) <= exp (2 * (2 * (2 * (2 * (1 / 32768))))))
    by (apply (exp_double_lower _ (500122083351811882839151 / 500000000000000000000000)); [lra | exact H3 | lra]).
  clear H3.
  assert (H5 : (500488512288499941855671 / 500000000000000000000000) <= exp (2 * (2 * (2 * (2 * (2 * (1 / 32768)))))))
    by (apply (exp_double_lower _ (1000488393024626689852431 / 1000000000000000000000000)); [lra | exact H4 | lra]).
  clear H4.
  assert (H6 : (1001955003731023829224379 / 1000000000000000000000000) <= exp (2 * (2 * (2 * (2 * (2 * (2 * (1 / 32768))))))))
    by (apply (exp_double_lower _ (500488512288499941855671 / 500000000000000000000000)); [lra | exact H5 | lra]).
  clear H5.
  assert (H7 : (250978457375408993885391 / 250000000000000000000000) <= exp (2 * (2 * (2 * (2 * (2 * (2 * (2 * (1 / 32768)))))))))
    by (apply (exp_double_lower _ (1001955003731023829224379 / 1000000000000000000000000)); [lra | exact H6 | lra]).
  clear H6.
  assert (H8 : (503921488532319913595901 / 500000000000000000000000) <= exp (2 * (2 * (2 * (2 * (2 * (2 * (2 * (2 * (1 / 32768))))))))))
    by (apply (exp_double_lower _ (250978457375408993885391 / 250000000000000000000000)); [lra | exact H7 | lra]).
  clear H7.
  assert (H9 : (793552708139465719331 / 781250000000000000000) <= exp (2 * (2 * (2 * (2 * (2 * (2 * (2 * (2 * (2 * (1 / 32768)))))))))))
    by (apply (exp_double_lower _ (503921488532319913595901 / 500000000000000000000000)); [lra | exact H8 | lra]).
  clear H8.
  assert (H10 : (1031742915535634534426241 / 1000000000000000000000000) <= exp (2 * (2 * (2 * (2 * (2 * (2 * (2 * (2 * (2 * (2 * (1 / 32768))))))))))))
    by (apply (exp_double_lower _ (793552708139465719331 / 781250000000000000000)); [lra | exact H9 | lra]).
  clear H9.
  assert (H11 : (1064493443757971497134099 / 1000000000000000000000000) <= exp (2 * (2 * (2 * (2 * (2 * (2 * (2 * (2 * (2 * (2 * (2 * (1 / 32768)))))))))))))
    by (apply (exp_double_lower _ (1031742915535634534426241 / 1000000000000000000000000)); [lra | exact H10 | lra]).
  clear H10.
  assert (H12 : (283286572950926406733701 / 250000000000000000000000) <= exp (2 * (2 * (2 * (2 * (2 * (2 * (2 * (2 * (2 * (2 * (2 * (2 * (1 / 32768))))))))))))))
    by (apply (exp_double_lower _ (1064493443757971497134099 / 1000000000000000000000000)); [lra | exact H11 | lra]).
  clear H11.
  assert (H13 : (321005129657122195519987 / 250000000000000000000000) <= exp (2 * (2 * (2 * (2 * (2 * (2 * (2 * (2 * (2 * (2 * (2 * (2 * (2 * (1 / 32768)))))))))))))))
    by (apply (exp_double_lower _ (283286572950926406733701 / 250000000000000000000000)); [lra | exact H12 | lra]).
  clear H12.
  assert (H14 : (824354346129486653720983 / 500000000000000000000000) <= exp (2 * (2 * (2 * (2 * (2 * (2 * (2 * (2 * (2 * (2 * (2 * (2 * (2 * (2 * (1 / 32768))))))))))))))))
    by (apply (exp_double_lower _ (321005129657122195519987 / 250000000000000000000000)); [lra | exact H13 | lra]).
  clear H13.
  assert (H15 : (1359120175965146975009091 / 500000000000000000000000) <= exp (2 * (2 * (2 * (2 * (2 * (2 * (2 * (2 * (2 * (2 * (2 * (2 * (2 * (2 * (2 * (1 / 32768)))))))))))))))))
    by (apply (exp_double_lower _ (824354346129486653720983 / 500000000000000000000000)); [lra | exact H14 | lra]).
  clear H14.
  replace (2 * (2 * (2 * (2 * (2 * (2 * (2 * (2 * (2 * (2 * (2 * (2 * (2 * (2 * (2 * (1 / 32768)))))))))))))))) with (1) in H15 by lra. lra.
Qed.

(** [1 / 2.7184 <= 1 / e], in the same way from [x = - 2^-15]. *)
Lemma exp_minus_1_lower : 10000 / 27184 <= exp (- 1).
Proof.
  assert (H0 : (32767 / 32768) <= exp (- (1 / 32768))) by (pose proof (exp_ineq1_le (- (1 / 32768))); lra).
  assert (H1 : (499969482887536287307739 / 500000000000000000000000) <= exp (2 * (- (1 / 32768))))
    by (apply (exp_double_lower _ (32767 / 32768)); [lra | exact H0 | lra]).
  clear H0.
  assert (H2 : (99987793527532176172251 / 100000000000000000000000) <= exp (2 * (2 * (- (1 / 32768)))))
    by (apply (exp_double_lower _ (499969482887536287307739 / 500000000000000000000000)); [lra | exact H1 | lra]).
  clear H1.
  assert (H3 : (249938971362610133554783 / 250000000000000000000000) <= exp (2 * (2 * (2 * (- (1 / 32768))))))
    by (apply (exp_double_lower _ (99987793527532176172251 / 100000000000000000000000)); [lra | exact H2 | lra]).
  clear H2.
  assert (H4 : (499755915246397187529569 / 500000000000000000000000) <= exp (2 * (2 * (2 * (2 * (- (1 / 32768)))))))
    by (apply (exp_double_lower _ (249938971362610133554783 / 250000000000000000000000)); [lra | exact H3 | lra]).
  clear H3.
  assert (H5 : (999023899295056515500977 / 1000000000000000000000000) <= exp (2 * (2 * (2 * (2 * (2 * (- (1 / 32768))))))))
    by (apply (exp_double_lower _ (499755915246397187529569 / 500000000000000000000000)); [lra | exact H4 | lra]).
  clear H4.
  assert (H6 : (499024375681349611084669 / 500000000000000000000000) <= exp (2 * (2 * (2 * (2 * (2 * (2 * (- (1 / 32768)))))))))
    by (apply (exp_double_lower _ (999023899295056515500977 / 1000000000000000000000000)); [lra | exact H5 | lra]).
  clear H5.
  assert (H7 : (996101310096643012481109 / 1000000000000000000000000) <= exp (2 * (2 * (2 * (2 * (2 * (2 * (2 * (- (1 / 32768))))))))))
    by (apply (exp_double_lower _ (499024375681349611084669 / 500000000000000000000000)); [lra | exact H6 | lra]).
  clear H6.
  assert (H8 : (992217819976248562678897 / 1000000000000000000000000) <= exp (2 * (2 * (2 * (2 * (2 * (2 * (2 * (2 * (- (1 / 32768)))))))))))
    by (apply (exp_double_lower _ (996101310096643012481109 / 1000000000000000000000000)); [lra | exact H7 | lra]).
  clear H7.
  assert (H9 : (984496202278419201279341 / 1000000000000000000000000) <= exp (2 * (2 * (2 * (2 * (2 * (2 * (2 * (2 * (2 * (- (1 / 32768))))))))))))
    by (apply (exp_double_lower _ (992217819976248562678897 / 1000000000000000000000000)); [lra | exact H8 | lra]).
  clear H8.
  assert (H10 : (484616386150315048262143 / 500000000000000000000000) <= exp (2 * (2 * (2 * (2 * (2 * (2 * (2 * (2 * (2 * (2 * (- (1 / 32768)))))))))))))
    by (apply (exp_double_lower _ (984496202278419201279341 / 1000000000000000000000000)); [lra | exact H9 | lra]).
  clear H9.
  assert (H11 : (939412166901565067692101 / 1000000000000000000000000) <= exp (2 * (2 * (2 * (2 * (2 * (2 * (2 * (2 * (2 * (2 * (2 * (- (1 / 32768))))))))))))))
    by (apply (exp_double_lower _ (484616386150315048262143 / 500000000000000000000000)); [lra | exact H10 | lra]).
  clear H10.
  assert (H12 : (441247609661346971436983 / 500000000000000000000000) <= exp (2 * (2 * (2 * (2 * (2 * (2 * (2 * (2 * (2 * (2 * (2 * (2 * (- (1 / 32768)))))))))))))))
    by (apply (exp_double_lower _ (939412166901565067692101 / 1000000000000000000000000)); [lra | exact H11 | lra]).
  clear H11.
  assert (H13 : (778797812127409684677199 / 1000000000000000000000000) <= exp (2 * (2 * (2 * (2 * (2 * (2 * (2 * (2 * (2 * (2 * (2 * (2 * (2 * (- (1 / 32768))))))))))))))))
    by (apply (exp_double_lower _ (441247609661346971436983 / 500000000000000000000000)); [lra | exact H12 | lra]).
  clear H12.
  assert (H14 : (303263016087220055662329 / 500000000000000000000000) <= exp (2 * (2 * (2 * (2 * (2 * (2 * (2 * (2 * (2 * (2 * (2 * (2 * (2 * (2 * (- (1 / 32768)))))))))))))))))
    by (apply (exp_double_lower _ (778797812127409684677199 / 1000000000000000000000000)); [lra | exact H13 | lra]).
  clear H13.
  assert (H15 : (73574765541053992223439 / 200000000000000000000000) <= exp (2 * (2 * (2 * (2 * (2 * (2 * (2 * (2 * (2 * (2 * (2 * (2 * (2 * (2 * (2 * (- (1 / 32768))))))))))))))))))
    by (apply (exp_double_lower _ (303263016087220055662329 / 500000000000000000000000)); [lra | exact H14 | lra]).
  clear H14.
  replace (2 * (2 * (2 * (2 * (2 * (2 * (2 * (2 * (2 * (2 * (2 * (2 * (2 * (2 * (2 * (- (1 / 32768))))))))))))))))) with (- 1) in H15 by lra. lra.
Qed.

Lemma exp_1_upper : exp 1 <= 27184 / 10000.
Proof.
  pose proof exp_minus_1_lower as L. pose proof (exp_pos (- 1)) as P.
  assert (E : exp 1 * exp (- 1) = 1)
    by (rewrite <- exp_plus, Rplus_opp_r; apply exp_0).
  pose proof (exp_pos 1). nra.
Qed.

Lemma exp_INR (n : nat) : exp (INR n) = exp 1 ^ n.
Proof.
  induction n as [| n IH].
  - simpl. apply exp_0.
  - rewrite S_INR, exp_plus, IH. simpl. ring.
Qed.

Lemma ratio_pow (a b : Z) (n : nat) :
  (0 < b)%Z ->
  (IZR a / IZR b) ^ n = IZR (a ^ Z.of_nat n) / IZR (b ^ Z.of_nat n).
Proof.
  intros Hb. unfold Rdiv. now rewrite Rpow_mult_distr, pow_inv, !pow_IZR.
Qed.

Lemma ratio_pow_ge (a b c : Z) (n : nat) :
  (0 < b)%Z -> (c * b ^ Z.of_nat n <= a ^ Z.of_nat n)%Z ->
  IZR c <= (IZR a / IZR b) ^ n.
Proof.
  intros Hb H. rewrite ratio_pow by exact Hb.
  assert (P : 0 < IZR (b ^ Z.of_nat n)).
  { apply IZR_lt. apply Z.pow_pos_nonneg; lia. }
  apply IZR_le in H. rewrite mult_IZR in H.
  apply Rmult_le_reg_r with (r := IZR (b ^ Z.of_nat n)); [exact P |].
  unfold Rdiv. rewrite Rmult_assoc, Rinv_l by lra. lra.
Qed.

Lemma ratio_pow_lt (a b c : Z) (n : nat) :
  (0 < b)%Z -> (a ^ Z.of_nat n < c * b ^ Z.of_nat n)%Z ->
  (IZR a / IZR b) ^ n < IZR c.
Proof.
  intros Hb H. rewrite ratio_pow by exact Hb.
  assert (P : 0 < IZR (b ^ Z.of_nat n)).
  { apply IZR_lt. apply Z.pow_pos_nonneg; lia. }
  apply IZR_lt in H. rewrite mult_IZR in H.
  apply Rmult_lt_reg_r with (r := IZR (b ^ Z.of_nat n)); [exact P |].
  unfold Rdiv. rewrite Rmult_assoc, Rinv_l by lra. lra.
Qed.

Lemma exp_nat_lower (n : nat) (c : Z) :
  (c * 10000 ^ Z.of_nat n <= 27182 ^ Z.of_nat n)%Z -> IZR c <= exp (INR n).
Proof.
  intros H. rewrite exp_INR.
  apply Rle_trans with ((IZR 27182 / IZR 10000) ^ n).
  - apply ratio_pow_ge; [lia | exact H].
  - apply pow_incr. pose proof exp_1_lower. lra.
Qed.

Lemma exp_nat_upper (n : nat) (c : Z) :
  (27184 ^ Z.of_nat n < c * 10000 ^ Z.of_nat n)%Z -> exp (INR n) < IZR c.
Proof.
  intros H. rewrite exp_INR.
  apply Rle_lt_trans with ((IZR 27184 / IZR 10000) ^ n).
  - apply pow_incr. pose proof exp_1_upper. pose proof (exp_pos 1). lra.
  - apply ratio_pow_lt; [lia | exact H].
Qed.

(** ** Rounding into the range *)

Lemma overflow_large : 1000000 <= Binary64.overflow.
Proof. unfold Binary64.overflow. apply IZR_le. vm_compute. discriminate. Qed.

Lemma underflow_small : 0 < Binary64.underflow < / 1000000.
Proof.
  unfold Binary64.underflow. split.
  - apply Rinv_0_lt_compat. apply IZR_lt. reflexivity.
  - apply Rinv_lt_contravar.
    + apply Rmult_lt_0_compat; [lra | apply IZR_lt; reflexivity].
    + apply IZR_lt. reflexivity.
Qed.

Lemma to_f64_fin (x : R) :
  Binary64.underflow < x -> x < Binary64.overflow ->
  Binary64.to_f64 x = Binary64.Fin x.
Proof.
  intros L U. pose proof underflow_small. pose proof overflow_large.
  unfold Binary64.to_f64.
  destruct (Rle_dec Binary64.overflow x); [lra |].
  destruct (Rle_dec x (- Binary64.overflow)); [lra |].
  destruct (Rle_dec (Rabs x) Binary64.underflow) as [A |]; [| reflexivity].
  rewrite Rabs_pos_eq in A by lra. lra.
Qed.

Lemma to_f64_zero : Binary64.to_f64 0 = Binary64.Fin 0.
Proof.
  pose proof underflow_small. pose proof overflow_large.
  unfold Binary64.to_f64.
  destruct (Rle_dec Binary64.overflow 0); [lra |].
  destruct (Rle_dec 0 (- Binary64.overflow)); [lra |].
  now destruct (Rle_dec (Rabs 0) Binary64.underflow).
Qed.

Lemma to_f64_fin0 (x : R) :
  x = 0 \/ Binary64.underflow < x -> x < Binary64.overflow ->
  Binary64.to_f64 x = Binary64.Fin x.
Proof.
  intros [-> | L] U; [apply to_f64_zero | now apply to_f64_fin].
Qed.

Lemma to_f64_fin_neg (x : R) :
  x < - Binary64.underflow -> - Binary64.overflow < x ->
  Binary64.to_f64 x = Binary64.Fin x.
Proof.
  intros L U. pose proof underflow_small. pose proof overflow_large.
  unfold Binary64.to_f64.
  destruct (Rle_dec Binary64.overflow x); [lra |].
  destruct (Rle_dec x (- Binary64.overflow)); [lra |].
  destruct (Rle_dec (Rabs x) Binary64.underflow) as [A |]; [| reflexivity].
  rewrite Rabs_left in A by lra. lra.
Qed.

Lemma to_f64_overflow (x : R) :
  Binary64.overflow <= x -> Binary64.to_f64 x = Binary64.PInf.
Proof.
  intros H. unfold Binary64.to_f64.
  now destruct (Rle_dec Binary64.overflow x).
Qed.

Lemma to_f64_underflow (x : R) :
  0 <= x -> x <= Binary64.underflow -> Binary64.to_f64 x = Binary64.Fin 0.
Proof.
  intros P U. pose proof underflow_small. pose proof overflow_large.
  unfold Binary64.to_f64.
  destruct (Rle_dec Binary64.overflow x); [lra |].
  destruct (Rle_dec x (- Binary64.overflow)); [lra |].
  destruct (Rle_dec (Rabs x) Binary64.underflow) as [A | A]; [reflexivity |].
  rewrite Rabs_pos_eq in A by lra. lra.
Qed.

Lemma to_f64_not_nan (x : R) : Binary64.to_f64 x <> Binary64.NaN.
Proof.
  unfold Binary64.to_f64.
  destruct (Rle_dec Binary64.overflow x); [discriminate |].
  destruct (Rle_dec x (- Binary64.overflow)); [discriminate |].
  destruct (Rle_dec (Rabs x) Binary64.underflow); discriminate.
Qed.

Lemma to_f64_le (x y : R) :
  x <= y -> Binary64.le (Binary64.to_f64 x) (Binary64.to_f64 y).
Proof.
  intros H. pose proof underflow_small. pose proof overflow_large.
  unfold Binary64.to_f64.
  destruct (Rle_dec Binary64.overflow x), (Rle_dec Binary64.overflow y);
    simpl; try lra; try exact I;
    destruct (Rle_dec x (- Binary64.overflow)),
             (Rle_dec y (- Binary64.overflow)); simpl;
      try lra; try exact I;
    destruct (Rle_dec (Rabs x) Binary64.underflow) as [A | A],
             (Rle_dec (Rabs y) Binary64.underflow) as [B | B];
      simpl; try lra; try exact I;
    unfold Rabs in A, B;
    destruct (Rcase_abs x), (Rcase_abs y); lra.
Qed.

Lemma to_f64_nonneg (x : R) : 0 <= x -> Binary64.nonneg (Binary64.to_f64 x).
Proof.
  intros H. pose proof overflow_large. unfold Binary64.to_f64.
  destruct (Rle_dec Binary64.overflow x); [exact I |].
  destruct (Rle_dec x (- Binary64.overflow)); [lra |].
  destruct (Rle_dec (Rabs x) Binary64.underflow); simpl; lra.
Qed.

Lemma np_exp_nonneg (a : Binary64.f64) :
  a <> Binary64.NaN -> Binary64.nonneg (Binary64.np_exp a).
Proof.
  destruct a as [x | | |]; simpl; intros N; try lra; try exact I; try congruence.
  apply to_f64_nonneg. apply Rlt_le, exp_pos.
Qed.

Lemma np_exp_le (a b : Binary64.f64) :
  Binary64.le a b -> Binary64.le (Binary64.np_exp a) (Binary64.np_exp b).
Proof.
  destruct a as [x | | |], b as [y | | |]; simpl; try tauto; intros H.
  - apply to_f64_le.
    destruct H as [H | ->]; [apply Rlt_le, exp_increasing, H | lra].
  - pose proof (to_f64_nonneg (exp x) (Rlt_le _ _ (exp_pos x))).
    destruct (Binary64.to_f64 (exp x)); simpl in *; tauto.
  - pose proof (to_f64_nonneg (exp y) (Rlt_le _ _ (exp_pos y))).
    destruct (Binary64.to_f64 (exp y)); simpl in *; tauto.
  - lra.
Qed.

Lemma mul_le (h : R) (a b : Binary64.f64) :
  0 < h -> Binary64.nonneg a -> Binary64.nonneg b -> Binary64.le a b ->
  Binary64.le (Binary64.mul (Binary64.Fin h) a) (Binary64.mul (Binary64.Fin h) b).
Proof.
  intros Hh Na Nb H.
  destruct a as [x | | |], b as [y | | |]; simpl in *; try tauto.
  - apply to_f64_le. apply Rmult_le_compat_l; lra.
  - destruct (Rlt_dec 0 h); [| lra].
    pose proof (to_f64_nonneg (h * x)) as P.
    destruct (Binary64.to_f64 (h * x)); simpl in *; try tauto. apply P. nra.
  - destruct (Rlt_dec 0 h); [exact I | lra].
Qed.

Lemma mul_fin_pinf (h : R) :
  0 < h -> Binary64.mul (Binary64.Fin h) Binary64.PInf = Binary64.PInf.
Proof. intros H. simpl. destruct (Rlt_dec 0 h); [reflexivity | lra]. Qed.

Lemma f64_travel_time_num (v C T : R) :
  C <> 0 ->
  Binary64.travel_time (Num v) (Num C) (Num T) =
  Ok (Binary64.mul (Binary64.to_f64 (0.5 * T))
                   (Binary64.np_exp (Binary64.to_f64 (v / C)))).
Proof.
  intros N. unfold Binary64.travel_time; simpl.
  destruct (Req_dec_T C 0); [contradiction | reflexivity].
Qed.

(** [22019 <= exp 10 <= 22037], from the bounds on [exp 1]. *)
Lemma exp_10_lower : 22019 <= exp 10.
Proof.
  replace 10 with (INR 10) by (rewrite INR_IZR_INZ; reflexivity).
  apply exp_nat_lower. vm_compute. discriminate.
Qed.

Lemma exp_10_upper : exp 10 < 22037.
Proof.
  replace 10 with (INR 10) by (rewrite INR_IZR_INZ; reflexivity).
  apply exp_nat_upper. vm_compute. reflexivity.
Qed.

Lemma exp_times (n : nat) (x : R) : exp (INR n * x) = exp x ^ n.
Proof.
  induction n as [| n IH].
  - simpl. rewrite Rmult_0_l. apply exp_0.
  - rewrite S_INR, Rmult_plus_distr_r, Rmult_1_l, exp_plus, IH. simpl. ring.
Qed.

Lemma exp_tens_lower (n : nat) (c : Z) :
  (c <= 22019 ^ Z.of_nat n)%Z -> IZR c <= exp (INR n * 10).
Proof.
  intros H. rewrite exp_times.
  apply Rle_trans with (22019 ^ n).
  - rewrite pow_IZR. now apply IZR_le.
  - apply pow_incr. pose proof exp_10_lower. lra.
Qed.

Lemma exp_tens_upper (n : nat) (c : Z) :
  (22037 ^ Z.of_nat n < c)%Z -> exp (INR n * 10) < IZR c.
Proof.
  intros H. rewrite exp_times.
  apply Rle_lt_trans with (22037 ^ n).
  - apply pow_incr. pose proof exp_10_upper. pose proof (exp_pos 10). lra.
  - rewrite pow_IZR. now apply IZR_lt.
Qed.

Lemma exp_1000_overflows : Binary64.overflow <= exp 1000.
Proof.
  replace 1000 with (INR 100 * 10)
    by (rewrite INR_IZR_INZ; change (Z.of_nat 100) with 100%Z; lra).
  unfold Binary64.overflow. apply exp_tens_lower. vm_compute. discriminate.
Qed.

Lemma exp_710_overflows : Binary64.overflow <= exp 710.
Proof.
  replace 710 with (INR 71 * 10)
    by (rewrite INR_IZR_INZ; change (Z.of_nat 71) with 71%Z; lra).
  unfold Binary64.overflow. apply exp_tens_lower. vm_compute. discriminate.
Qed.

Lemma exp_710_upper : exp 710 < 2 * Binary64.overflow.
Proof.
  replace 710 with (INR 71 * 10)
    by (rewrite INR_IZR_INZ; change (Z.of_nat 71) with 71%Z; lra).
  unfold Binary64.overflow. rewrite <- mult_IZR. apply exp_tens_upper.
  vm_compute. reflexivity.
Qed.

Lemma exp_minus_1500_underflows : exp (- 1500) <= Binary64.underflow.
Proof.
  assert (L : IZR (2 ^ 1075) <= exp 1500).
  { replace 1500 with (INR 150 * 10)
    by (rewrite INR_IZR_INZ; change (Z.of_nat 150) with 150%Z; lra).
    apply exp_tens_lower. vm_compute. discriminate. }
  assert (P : 0 < IZR (2 ^ 1075)) by (apply IZR_lt; reflexivity).
  unfold Binary64.underflow.
  replace (exp (- 1500)) with (/ exp 1500)
    by (rewrite <- exp_Ropp; f_equal; lra).
  apply Rinv_le_contravar; assumption.
Qed.

(** ** [travel_time] in the range of binary64 *)

(** Above a load of about 709.78 the exponential is [inf], and so is the
    travel time. *)
Example f64_travel_time_inf :
  Binary64.travel_time (Num 1000) (Num 1) (Num 3) = Ok Binary64.PInf.
Proof.
  pose proof underflow_small. pose proof overflow_large.
  rewrite f64_travel_time_num by lra.
  rewrite (to_f64_fin (0.5 * 3)), (to_f64_fin (1000 / 1)) by lra.
  simpl Binary64.np_exp. replace (1000 / 1) with 1000 by lra.
  rewrite to_f64_overflow by apply exp_1000_overflows.
  apply f_equal, mul_fin_pinf. lra.
Qed.

(** With a negative capacity the exponential can underflow, and the
    travel time is zero. *)
Example f64_travel_time_zero :
  Binary64.travel_time (Num 1500) (Num (-1)) (Num 3) = Ok (Binary64.Fin 0).
Proof.
  pose proof underflow_small. pose proof overflow_large.
  rewrite f64_travel_time_num by lra.
  rewrite (to_f64_fin (0.5 * 3)) by lra.
  replace (1500 / -1) with (- 1500) by lra.
  rewrite (to_f64_fin_neg (- 1500)) by lra.
  simpl Binary64.np_exp.
  rewrite (to_f64_underflow (exp (- 1500)))
    by (apply Rlt_le, exp_pos || apply exp_minus_1500_underflows).
  simpl. rewrite Rmult_0_r. now rewrite to_f64_zero.
Qed.

(** With a free-flow time of zero and an exponential that overflows the
    travel time is [0 * inf], not a number. *)
Example f64_travel_time_nan :
  Binary64.travel_time (Num 1000) (Num 1) (Num 0) = Ok Binary64.NaN.
Proof.
  pose proof underflow_small. pose proof overflow_large.
  rewrite f64_travel_time_num by lra.
  rewrite Rmult_0_r, to_f64_zero, (to_f64_fin (1000 / 1)) by lra.
  simpl Binary64.np_exp. replace (1000 / 1) with 1000 by lra.
  rewrite to_f64_overflow by apply exp_1000_overflows.
  simpl. destruct (Rlt_dec 0 0); [lra | reflexivity].
Qed.

(** C4 fails as stated: at the volumes 1000 and 2000, with capacity 1 and
    free-flow time 3, both travel times are [inf], so the second is not
    greater than the first. *)
Lemma travel_time_saturates :
  Binary64.travel_time (Num 1000) (Num 1) (Num 3) = Ok Binary64.PInf /\
  Binary64.travel_time (Num 2000) (Num 1) (Num 3) = Ok Binary64.PInf /\
  ~ Binary64.lt Binary64.PInf Binary64.PInf.
Proof.
  pose proof underflow_small. pose proof overflow_large.
  pose proof exp_1000_overflows as O.
  assert (O2 : Binary64.overflow <= exp 2000).
  { apply Rle_trans with (exp 1000); [exact O |].
    apply Rlt_le, exp_increasing. lra. }
  split; [apply f64_travel_time_inf | split].
  - rewrite f64_travel_time_num by lra.
    rewrite (to_f64_fin (0.5 * 3)), (to_f64_fin (2000 / 1)) by lra.
    simpl Binary64.np_exp. replace (2000 / 1) with 2000 by lra.
    rewrite to_f64_overflow by exact O2.
    apply f_equal, mul_fin_pinf. lra.
  - simpl. tauto.
Qed.

(** C4, as the code has it: for a capacity [C > 0] and a free-flow time
    [T] whose half is a positive number of binary64 (above the smallest
    positive float, below the overflow threshold), the travel time does
    not fall when the volume grows: for [v1 < v2] both calls return and
    the first result is at most the second, where either may be [inf]. *)
Theorem travel_time_nondecreasing (C T v1 v2 : R) :
  0 < C -> 2 * Binary64.underflow < T -> T < Binary64.overflow -> v1 < v2 ->
  exists t1 t2,
    Binary64.travel_time (Num v1) (Num C) (Num T) = Ok t1 /\
    Binary64.travel_time (Num v2) (Num C) (Num T) = Ok t2 /\
    Binary64.le t1 t2.
Proof.
  intros HC HT HT' Hv. pose proof underflow_small.
  do 2 eexists. rewrite !f64_travel_time_num by lra.
  split; [reflexivity | split; [reflexivity |]].
  rewrite (to_f64_fin (0.5 * T)) by lra.
  apply mul_le; [lra | | |].
  - apply np_exp_nonneg, to_f64_not_nan.
  - apply np_exp_nonneg, to_f64_not_nan.
  - apply np_exp_le, to_f64_le.
    unfold Rdiv. apply Rmult_le_compat_r; [| lra].
    apply Rlt_le. now apply Rinv_0_lt_compat.
Qed.

Lemma travel_time_nondecreasing_witness :
  exists t1 t2,
    Binary64.travel_time (Num 1) (Num 2) (Num 3) = Ok t1 /\
    Binary64.travel_time (Num 4) (Num 2) (Num 3) = Ok t2 /\
    Binary64.le t1 t2.
Proof.
  pose proof underflow_small. pose proof overflow_large.
  apply travel_time_nondecreasing; lra.
Defined.

(** C8 fails as stated: at volume 355, capacity 1 and free-flow time 1
    the travel time at half the capacity is [inf], while [exp (v / C)]
    times the travel time at the full capacity is a finite number. *)
Lemma travel_time_half_capacity_overflows :
  Binary64.travel_time (Num 355) (Num (1 / 2)) (Num 1) = Ok Binary64.PInf /\
  Binary64.travel_time (Num 355) (Num 1) (Num 1) =
    Ok (Binary64.Fin (0.5 * 1 * exp 355)) /\
  Binary64.mul (Binary64.np_exp (Binary64.to_f64 (355 / 1)))
               (Binary64.Fin (0.5 * 1 * exp 355)) =
    Binary64.Fin (exp 355 * (0.5 * 1 * exp 355)).
Proof.
  pose proof underflow_small. pose proof overflow_large.
  pose proof exp_710_overflows as O. pose proof exp_710_upper as U.
  assert (E : exp 710 = exp 355 * exp 355)
    by (rewrite <- exp_plus; f_equal; lra).
  assert (P : 1 <= exp 355) by (pose proof (exp_ineq1_le 355); lra).
  assert (B : exp 355 < Binary64.overflow) by nra.
  rewrite !f64_travel_time_num by lra.
  rewrite (to_f64_fin (0.5 * 1)) by lra.
  replace (355 / (1 / 2)) with 710 by lra. replace (355 / 1) with 355 by lra.
  rewrite (to_f64_fin 710), (to_f64_fin 355) by lra.
  simpl Binary64.np_exp. rewrite (to_f64_overflow (exp 710)) by exact O.
  rewrite (to_f64_fin (exp 355)) by lra.
  rewrite mul_fin_pinf by lra.
  split; [reflexivity |].
  simpl Binary64.mul. rewrite !to_f64_fin by nra. split; reflexivity.
Qed.

(** C8, as the code has it: for a volume [v >= 0], a capacity [C > 0] and
    a free-flow time [T > 0], as long as no intermediate result leaves
    the range of binary64 (the load [v / C] is zero or above the
    underflow threshold, half of [T] is above it, and [exp (v / (C / 2))]
    and the travel time at [C / 2] are below the overflow threshold), both
    travel times are finite and the one at capacity [C / 2] is
    [exp (v / C)] times the one at capacity [C], up to the rounding of
    binary64. *)
Theorem travel_time_half_capacity_in_range (v C T : R) :
  0 <= v -> 0 < C -> 2 * Binary64.underflow < T ->
  v = 0 \/ Binary64.underflow < v / C ->
  exp (v / (C / 2)) < Binary64.overflow ->
  0.5 * T * exp (v / (C / 2)) < Binary64.overflow ->
  exists t t',
    Binary64.travel_time (Num v) (Num C) (Num T) = Ok (Binary64.Fin t) /\
    Binary64.travel_time (Num v) (Num (C / 2)) (Num T) = Ok (Binary64.Fin t') /\
    Binary64.mul (Binary64.np_exp (Binary64.to_f64 (v / C))) (Binary64.Fin t) =
      Binary64.Fin t' /\
    t' = exp (v / C) * t.
Proof.
  intros Hv HC HT Hload He Ht. pose proof underflow_small.
  set (a := v / C).
  assert (Ea : v / (C / 2) = a + a) by (unfold a; field; lra).
  rewrite Ea in *.
  assert (A0 : 0 <= a).
  { unfold a. apply Rmult_le_pos; [lra | apply Rlt_le, Rinv_0_lt_compat; lra]. }
  assert (A1 : a = 0 \/ Binary64.underflow < a).
  { destruct Hload as [-> | L]; [left; unfold a; field; lra | now right]. }
  assert (E2 : exp (a + a) = exp a * exp a) by apply exp_plus.
  assert (P : 1 + a <= exp a) by apply exp_ineq1_le.
  assert (P2 : 1 + (a + a) <= exp (a + a)) by apply exp_ineq1_le.
  exists (0.5 * T * exp a), (0.5 * T * exp (a + a)).
  rewrite !f64_travel_time_num by lra. fold a. rewrite Ea.
  rewrite (to_f64_fin (0.5 * T)) by nra.
  rewrite (to_f64_fin0 a) by (assumption || nra).
  rewrite (to_f64_fin0 (a + a)) by (lra || (destruct A1; [left | right]; lra)).
  simpl Binary64.np_exp.
  rewrite (to_f64_fin (exp a)), (to_f64_fin (exp (a + a))) by nra.
  simpl Binary64.mul. rewrite !to_f64_fin by nra.
  repeat split; try reflexivity.
  - f_equal. rewrite E2. ring.
  - rewrite E2. ring.
Qed.

Lemma travel_time_half_capacity_in_range_witness :
  exists t t',
    Binary64.travel_time (Num 400) (Num 500) (Num 3) = Ok (Binary64.Fin t) /\
    Binary64.travel_time (Num 400) (Num (500 / 2)) (Num 3) =
      Ok (Binary64.Fin t') /\
    Binary64.mul (Binary64.np_exp (Binary64.to_f64 (400 / 500))) (Binary64.Fin t) =
      Binary64.Fin t' /\
    t' = exp (400 / 500) * t.
Proof.
  pose proof underflow_small. pose proof overflow_large.
  assert (E : exp (400 / (500 / 2)) < 9).
  { apply Rlt_le_trans with (exp (1 + 1)); [apply exp_increasing; lra |].
    rewrite exp_plus. pose proof exp_le_3. pose proof (exp_pos 1). nra. }
  apply travel_time_half_capacity_in_range; lra.
Defined.

(** X2: for a volume [v >= 0] and a free-flow time whose half is a
    positive number of binary64, the travel time does not fall when the
    capacity shrinks: for [0 < C1 <= C2] the result at [C2] is at most the
    result at [C1], where either may be [inf]. *)
Theorem travel_time_nonincreasing_in_capacity (v C1 C2 T : R) :
  0 <= v -> 2 * Binary64.underflow < T -> T < Binary64.overflow ->
  0 < C1 -> C1 <= C2 ->
  exists t1 t2,
    Binary64.travel_time (Num v) (Num C1) (Num T) = Ok t1 /\
    Binary64.travel_time (Num v) (Num C2) (Num T) = Ok t2 /\
    Binary64.le t2 t1.
Proof.
  intros Hv HT HT' HC1 HC. pose proof underflow_small.
  do 2 eexists. rewrite !f64_travel_time_num by lra.
  split; [reflexivity | split; [reflexivity |]].
  rewrite (to_f64_fin (0.5 * T)) by lra.
  apply mul_le; [lra | | |].
  - apply np_exp_nonneg, to_f64_not_nan.
  - apply np_exp_nonneg, to_f64_not_nan.
  - apply np_exp_le, to_f64_le.
    unfold Rdiv. apply Rmult_le_compat_l; [exact Hv |].
    apply Rinv_le_contravar; assumption.
Qed.

Lemma travel_time_nonincreasing_in_capacity_witness :
  exists t1 t2,
    Binary64.travel_time (Num 400) (Num 450) (Num 3) = Ok t1 /\
    Binary64.travel_time (Num 400) (Num 500) (Num 3) = Ok t2 /\
    Binary64.le t2 t1.
Proof.
  pose proof underflow_small. pose proof overflow_large.
  apply travel_time_nonincreasing_in_capacity; lra.
Defined.

(** X3: for a volume [v >= 0], a capacity [C > 0] and a free-flow time
    [T] whose half is a positive number of binary64, the travel time is
    never below half the free-flow time (it may be [inf]). *)
Theorem travel_time_at_least_half (v C T : R) :
  0 <= v -> 0 < C -> 2 * Binary64.underflow < T -> T < Binary64.overflow ->
  exists t,
    Binary64.travel_time (Num v) (Num C) (Num T) = Ok t /\
    Binary64.le (Binary64.Fin (0.5 * T)) t.
Proof.
  intros Hv HC HT HT'. pose proof underflow_small. pose proof overflow_large.
  eexists. rewrite f64_travel_time_num by lra.
  split; [reflexivity |].
  rewrite (to_f64_fin (0.5 * T)) by lra.
  assert (E : Binary64.Fin (0.5 * T) =
              Binary64.mul (Binary64.Fin (0.5 * T)) (Binary64.np_exp (Binary64.Fin 0))).
  { simpl. rewrite exp_0, (to_f64_fin 1) by lra. simpl.
    rewrite Rmult_1_r. now rewrite to_f64_fin by lra. }
  rewrite E at 1.
  apply mul_le; [lra | | |].
  - now apply np_exp_nonneg.
  - apply np_exp_nonneg, to_f64_not_nan.
  - apply np_exp_le. rewrite <- to_f64_zero. apply to_f64_le.
    apply Rmult_le_pos; [exact Hv | apply Rlt_le, Rinv_0_lt_compat, HC].
Qed.

Lemma travel_time_at_least_half_witness :
  exists t,
    Binary64.travel_time (Num 400) (Num 500) (Num 3) = Ok t /\
    Binary64.le (Binary64.Fin (0.5 * 3)) t.
Proof.
  pose proof underflow_small. pose proof overflow_large.
  apply travel_time_at_least_half; lra.
Defined.
